(** * in-d-gestion: the event-stream core, embedded and verified

    The development follows the JavaScript sources:
    - the idifier ([hashVals], [buildHasher], [idifiers], [idify]);
    - the temp-basal joiner ([tempBasalJoin]) on top of [keep];
    - the stream operators [readline] and [splitMerge], built with [link].

    JavaScript objects are finite maps from property names to values; an
    object literal used as a table is the map of its own properties over
    the properties it inherits from [Object.prototype], and [Object.keys]
    lists its own properties in the engine's order.  Objects that are
    shared and mutated live in an explicit store, and a [throw] is an
    explicit result: an exception thrown out of an observer's callback
    goes back to the caller, and the observer keeps no record of it.
    What the libraries do is taken from their contracts: an Rx observer
    receives nothing after its first error or completion, [_.pick] copies
    the listed properties an object has, the digest of a hasher is a
    function of the data it was fed, a Buffer appended to a string is
    decoded on its own. *)

From Stdlib Require Import ZArith String Ascii List.
From stdpp Require Import base option list sorting gmap strings pretty.

Local Open Scope string_scope.
Local Open Scope list_scope.

(** ** JavaScript values *)

(** The values an event field holds: the primitive ones and, as [VObj],
    a reference to an object that has no string conversion of its own,
    such as an event.  Numbers are the integral ones (timestamps,
    durations), in the range where [String(n)] is the decimal numeral. *)
Inductive val : Type :=
  | VUndef
  | VNull
  | VBool (b : bool)
  | VNum (n : Z)
  | VStr (s : string)
  | VObj.

#[global] Instance val_eq_dec : EqDecision val.
Proof. solve_decision. Defined.

(** An event is an open record: property name to value.  A property that
    is absent reads as [undefined]; the fields the sources read (id, type,
    ts, the recipe fields, duration) are none of the names an event
    inherits. *)
Abbreviation event := (gmap string val).

Definition get (e : event) (field : string) : val :=
  default VUndef (e !! field).

(** [v == null] *)
Definition nullish (v : val) : bool :=
  match v with
  | VUndef | VNull => true
  | _ => false
  end.

(** [String(v)]; also the conversion of [v] to a property key. *)
Definition js_String (v : val) : string :=
  match v with
  | VUndef => "undefined"
  | VNull => "null"
  | VBool true => "true"
  | VBool false => "false"
  | VNum n => pretty n
  | VStr s => s
  | VObj => "[object Object]"
  end.

(** ** Exceptions *)

(** [except.ISE(fmt, args...)] keeps its format and arguments; [JsError]
    is [new Error(msg)]; [TypeError] is the one the engine throws, whose
    message is the engine's. *)
Inductive exn : Type :=
  | ISE (fmt : string) (args : list val)
  | JsError (msg : string)
  | TypeError.

#[global] Instance exn_eq_dec : EqDecision exn.
Proof. solve_decision. Defined.

(** A computation that returns or throws. *)
Inductive res (A : Type) : Type :=
  | Ret (a : A)
  | Throw (x : exn).
Arguments Ret {A} a.
Arguments Throw {A} x.

#[global] Instance res_ret : MRet res := @Ret.
#[global] Instance res_bind : MBind res := λ A B k m,
  match m with
  | Ret a => k a
  | Throw x => Throw x
  end.

(** ** Property lookup *)

(** The properties an object literal inherits from [Object.prototype]
    (ECMAScript, with the accessors of its Annex B). *)
Definition Object_prototype : list string :=
  ["constructor"; "toString"; "toLocaleString"; "valueOf";
   "hasOwnProperty"; "isPrototypeOf"; "propertyIsEnumerable";
   "__proto__"; "__defineGetter__"; "__defineSetter__";
   "__lookupGetter__"; "__lookupSetter__"].

(** What [o[key]] finds in an object literal [o]: the own property when
    there is one, else the inherited one, else [undefined].  None of the
    inherited properties is null or undefined. *)
Inductive property (V : Type) : Type :=
  | Own (v : V)
  | Inherited (name : string)
  | Undefined.
Arguments Own {V} v.
Arguments Inherited {V} name.
Arguments Undefined {V}.

Definition property_of {V} (own : option V) (key : string) : property V :=
  match own with
  | Some v => Own v
  | None =>
      if decide (key ∈ Object_prototype) then Inherited key else Undefined
  end.

(** A call [f(e)] of an inherited property [f], on an event [e] and
    without receiver.  [Object(e)] is [e] itself; [toString] tags its
    receiver, which is [undefined]; [__proto__] is not a function; the
    other members convert the receiver to an object first, which fails
    for [undefined]. *)
Definition call_inherited (name : string) : res val :=
  if decide (name = "constructor") then Ret VObj
  else if decide (name = "toString") then Ret (VStr "[object Undefined]")
  else Throw TypeError.

(** ** The idifier (src/unnamed/part_000) *)

Section Idifier.
(** The two library functions behind the digest: node's
    [crypto.createHash('sha1')] (the digest of everything fed to the
    hasher) and amoeba's [base32hex.encodeBuffer]. *)
Variable sha1 : string → string.
Variable encodeBuffer : string → string.

(** The hasher object is the data it has been fed; the loop of
    [hashVals] feeds it [String(vals[i])] for [i = 0, 1, ...]. *)
Fixpoint hashVals_update (hasher : string) (vals : list val) : string :=
  match vals with
  | [] => hasher
  | v :: vals' => hashVals_update (hasher +:+ js_String v) vals'
  end.

Definition hashVals (vals : list val) : string :=
  encodeBuffer (sha1 (hashVals_update "" vals)).

(** One getter of [buildHasher]: reads [e[field]], throws when it is
    null or undefined. *)
Definition getter (field : string) (e : event) : res val :=
  let retVal := get e field in
  if nullish retVal then
    Throw (ISE "Unable to make id for event type[%s], no field[%s]"
               [get e "type"; VStr field])
  else Ret retVal.

(** [getters.map(function(getter){ return getter(e); })]: left to
    right, the first throw aborts the map. *)
Fixpoint call_getters (getters : list (event → res val)) (e : event)
  : res (list val) :=
  match getters with
  | [] => Ret []
  | g :: gs =>
      v ← g e;
      vs ← call_getters gs e;
      mret (v :: vs)
  end.

Definition buildHasher (fields : list string) : event → res string :=
  let getters := map getter fields in
  fun e =>
    vals ← call_getters getters e;
    mret (hashVals vals).

Definition idifiers : gmap string (event → res string) :=
  list_to_map
    [ ("basal", buildHasher ["type"; "deliveryType"; "deviceId"; "ts"]);
      ("bolus", buildHasher ["type"; "subType"; "deviceId"; "ts"]);
      ("cbg", buildHasher ["type"; "deviceId"; "ts"]);
      ("deviceMeta", buildHasher ["type"; "subType"; "ts"]);
      ("smbg", buildHasher ["type"; "deviceId"; "ts"]);
      ("settings", buildHasher ["type"; "deviceId"; "ts"]);
      ("wizard", buildHasher ["type"; "deviceId"; "ts"]) ].

(** What a call [idify(e)] does: it returns (the argument, possibly
    with its [id] assigned) or throws; either way the event given is
    the argument object as the call leaves it. *)
Inductive outcome : Type :=
  | Returned (e : event)
  | Threw (x : exn) (e : event).

Definition idify (e : event) : outcome :=
  if nullish (get e "id") then
    let type := js_String (get e "type") in
    match property_of (idifiers !! type) type with
    | Undefined =>
        Threw (ISE "Unknown event type[%s] for idification. ts[%s]"
                   [get e "type"; get e "ts"]) e
    | Own handler =>
        match handler e with
        | Throw x => Threw x e
        | Ret id => Returned (<["id" := VStr id]> e)
        end
    | Inherited handler =>
        match call_inherited handler with
        | Throw x => Threw x e
        | Ret id => Returned (<["id" := id]> e)
        end
    end
  else Returned e.

(** *** The recipes as the specification words them *)

(** The id of [e] under a recipe: the string forms of the recipe's
    fields, concatenated in order, hashed and encoded. *)
Definition recipe_id (recipe : list string) (e : event) : string :=
  encodeBuffer
    (sha1 (String.concat "" (map (fun f => js_String (get e f)) recipe))).

(** Idification by a recipe: the first recipe field that is null or
    absent is a failure naming it; otherwise the id is assigned. *)
Definition idify_by_recipe (recipe : list string) (e : event) : outcome :=
  match List.find (fun f => nullish (get e f)) recipe with
  | Some f =>
      Threw (ISE "Unable to make id for event type[%s], no field[%s]"
                 [get e "type"; VStr f]) e
  | None => Returned (<["id" := VStr (recipe_id recipe e)]> e)
  end.

(** The recipe table of the specification. *)
Definition spec_recipe (type : string) : option (list string) :=
  if decide (type = "basal") then
    Some ["type"; "deliveryType"; "deviceId"; "ts"]
  else if decide (type = "bolus") then
    Some ["type"; "subType"; "deviceId"; "ts"]
  else if decide (type ∈ ["cbg"; "smbg"; "settings"]) then
    Some ["type"; "deviceId"; "ts"]
  else if decide (type ∈ ["deviceMeta"; "wizard"]) then
    Some ["type"; "subType"; "ts"]
  else None.

(** The recipes whose hashers [idifiers] registers, by type. *)
Definition registered_recipe (type : string) : option (list string) :=
  if decide (type = "basal") then
    Some ["type"; "deliveryType"; "deviceId"; "ts"]
  else if decide (type = "bolus") then
    Some ["type"; "subType"; "deviceId"; "ts"]
  else if decide (type ∈ ["cbg"; "smbg"; "settings"; "wizard"]) then
    Some ["type"; "deviceId"; "ts"]
  else if decide (type = "deviceMeta") then
    Some ["type"; "subType"; "ts"]
  else None.
End Idifier.

(** Events used as instances. *)
Definition wizard_event : event :=
  list_to_map [("type", VStr "wizard"); ("subType", VStr "meal");
               ("deviceId", VStr "d1"); ("ts", VNum 100)].

Definition wizard_event_no_device : event :=
  list_to_map [("type", VStr "wizard"); ("subType", VStr "meal");
               ("ts", VNum 100)].



(** Events whose type names a property of [Object.prototype]. *)
Definition toString_event : event :=
  list_to_map [("type", VStr "toString"); ("ts", VNum 100)].

Definition constructor_event : event :=
  list_to_map [("type", VStr "constructor"); ("ts", VNum 100)].

Definition valueOf_event : event :=
  list_to_map [("type", VStr "valueOf"); ("ts", VNum 100)].

(** Two glucose readings of different devices at different times whose
    recipe fields concatenate to the same string. *)
Definition cbg_d1_at_100 : event :=
  list_to_map [("type", VStr "cbg"); ("deviceId", VStr "d1");
               ("ts", VNum 100); ("value", VNum 90)].

Definition cbg_d_at_1100 : event :=
  list_to_map [("type", VStr "cbg"); ("deviceId", VStr "d");
               ("ts", VNum 1100); ("value", VNum 250)].

(** The string a recipe feeds the hasher for an event. *)
Definition recipe_content (recipe : list string) (e : event) : string :=
  String.concat "" (map (λ f, js_String (get e f)) recipe).

(** ** The object store *)

(** Events are JavaScript objects: the joiner remembers a reference to
    the event it was given, and [idify] assigns the [id] of that same
    object later on.  A location is the index of an object in the store,
    in allocation order. *)
Abbreviation loc := nat.
Abbreviation store := (list event).

(** Reading through a reference; every reference handed around was
    allocated, so the default is never met on a run. *)
Definition deref (h : store) (l : loc) : event := default ∅ (h !! l).

Definition alloc (h : store) (e : event) : loc * store :=
  (length h, h ++ [e]).

Definition update (h : store) (l : loc) (e : event) : store := <[l := e]> h.

(** ** lodash *)

(** The loop of [_.pick(object, props...)]: every listed key that is in
    the object is copied to the result. *)
Fixpoint pick_loop (object : event) (props : list string) (result : event)
  : event :=
  match props with
  | [] => result
  | key :: props' =>
      pick_loop object props'
        (match object !! key with
         | Some v => <[key := v]> result
         | None => result
         end)
  end.

Definition pick (object : event) (props : list string) : event :=
  pick_loop object props ∅.

(** [_.assign(object, source)]: the properties of the source are written
    over the object's. *)
Definition assign (object source : event) : event := source ∪ object.

(** ** Notifications and the operators [keep] and [link]
       (src/unnamed/part_001) *)

(** The three channels of an observer. *)
Inductive notif (A : Type) : Type :=
  | OnNext (a : A)
  | OnError (err : exn)
  | OnCompleted.
Arguments OnNext {A} a.
Arguments OnError {A} err.
Arguments OnCompleted {A}.

Definition terminal {A} (n : notif A) : bool :=
  match n with
  | OnNext _ => false
  | _ => true
  end.

(** [keep(fn)] is [map(fn).filter(e => e !== null)]: on one element, [fn]
    runs (it may change the state it closes over); a [null] result is
    dropped, anything else is emitted. *)
Definition keep {S A B} (fn : A → S → option B * S) (a : A) (s : S)
  : list B * S :=
  match fn a s with
  | (None, s') => ([], s')
  | (Some b, s') => ([b], s')
  end.

(** An observer made by [rx.Observer.create(onNext, onError, onCompleted)]
    and subscribed by [link]: a state and a reaction to each notification,
    which tells what it sends to the output observer.  After [onError] or
    [onCompleted] the observer is stopped and reacts to nothing. *)
Fixpoint link {S A B} (react : notif A → S → list (notif B) * S)
    (input : list (notif A)) (s : S) : list (notif B) * S :=
  match input with
  | [] => ([], s)
  | n :: input' =>
      let '(out, s') := react n s in
      if terminal n then (out, s')
      else let '(out', s'') := link react input' s' in (out ++ out', s'')
  end.

(** ** The temp-basal joiner (src/lib/carelink/basals/tempBasalJoin.js) *)

(** The state the function closes over: the store, and [currTemp], null
    or a reference to the active temp event. *)
Record joiner : Type := Joiner {
  heap : store;
  currTemp : option loc;
}.

(** Lines 32-38: the event synthesized for the stop signal [e] of the
    temp whose id reads [tempId]. *)
Definition temp_stop (e : event) (tempId : val) : event :=
  assign (pick e ["type"; "deviceTime"; "deviceId"; "source"])
    (<["deliveryType" := VStr "temp-stop"]> {["tempId" := tempId]}).

(** The function given to [keep]; [l] is the reference to the event
    [e].  [None] is the [null] result. *)
Definition tempBasalJoin_fn (l : loc) (j : joiner) : option loc * joiner :=
  let e := deref (heap j) l in
  if decide (get e "type" = VStr "basal" ∧ get e "deliveryType" = VStr "temp")
  then
    if decide (get e "duration" = VNum 0) then
      match currTemp j with
      | None => (None, j)
      | Some theTemp =>
          let stop := temp_stop e (get (deref (heap j) theTemp) "id") in
          let '(l', h') := alloc (heap j) stop in
          (Some l', {| heap := h'; currTemp := None |})
      end
    else (Some l, {| heap := heap j; currTemp := Some l |})
  else (Some l, j).

Definition tempBasalJoin (l : loc) (j : joiner) : list loc * joiner :=
  keep tempBasalJoin_fn l j.

(** The joiner over a sequence of events, from a given state. *)
Fixpoint tempBasalJoin_run (input : list loc) (j : joiner)
  : list loc * joiner :=
  match input with
  | [] => ([], j)
  | l :: input' =>
      let '(out, j') := tempBasalJoin l j in
      let '(out', j'') := tempBasalJoin_run input' j' in
      (out ++ out', j'')
  end.

(** The events the joiner tells apart: a temp-delivery basal event is the
    start of a temp unless its duration is the number zero, and then it
    is the stop signal. *)
Definition is_temp (e : event) : Prop :=
  get e "type" = VStr "basal" ∧ get e "deliveryType" = VStr "temp".

Definition is_temp_start (e : event) : Prop :=
  is_temp e ∧ get e "duration" ≠ VNum 0.

Definition is_temp_stop_signal (e : event) : Prop :=
  is_temp e ∧ get e "duration" = VNum 0.

(** ** The joiner followed by [idify] *)

Section Pipeline.
Variable sha1 : string → string.
Variable encodeBuffer : string → string.

(** [idify] on a reference: the object is updated in the store. *)
Definition idify_ref (l : loc) (h : store) : res loc * store :=
  match idify sha1 encodeBuffer (deref h l) with
  | Returned e' => (Ret l, update h l e')
  | Threw x e' => (Throw x, update h l e')
  end.

(** What the subscriber of the pipeline has seen, with the state the
    pipeline is in. *)
Record piped : Type := Piped {
  emitted : list loc;
  failure : option exn;
  state : joiner;
}.

(** Modelled from the spec: the glue that chains the joiner and [idify]
    is not among the sources; it is the chain
    [observable.apply(tempBasalJoin).map(idify)] of the pipeline the
    specification describes, in which every event is pushed through
    both stages before the next one is read, and an exception of the
    [map] function is sent as the stream's error, which ends it. *)
Fixpoint join_then_idify (input : list loc) (j : joiner) (seen : list loc)
  : piped :=
  match input with
  | [] => {| emitted := seen; failure := None; state := j |}
  | l :: input' =>
      match tempBasalJoin l j with
      | ([], j') => join_then_idify input' j' seen
      | (l' :: _, j') =>
          match idify_ref l' (heap j') with
          | (Ret l'', h') =>
              join_then_idify input'
                {| heap := h'; currTemp := currTemp j' |} (seen ++ [l''])
          | (Throw x, h') =>
              {| emitted := seen; failure := Some x;
                 state := {| heap := h'; currTemp := currTemp j' |} |}
          end
      end
  end.
End Pipeline.

(** The two raw events of the end-to-end scenario. *)
Definition scenario_start : event :=
  list_to_map [("type", VStr "basal"); ("deliveryType", VStr "temp");
               ("deviceId", VStr "d1"); ("ts", VNum 100);
               ("duration", VNum 30)].

Definition scenario_stop : event :=
  list_to_map [("type", VStr "basal"); ("deliveryType", VStr "temp");
               ("deviceId", VStr "d1"); ("ts", VNum 200);
               ("duration", VNum 0)].

Definition scenario : joiner :=
  {| heap := [scenario_start; scenario_stop]; currTemp := None |}.

(** A store for instances: a temp that is active and already idified, and
    its stop signal, with and without the fields the joiner copies. *)
Definition active_temp : event :=
  <["id" := VStr "t100"]> scenario_start.

Definition full_stop_signal : event :=
  <["deviceTime" := VStr "2014-01-01T00:03:20"]>
    (<["source" := VStr "carelink"]> scenario_stop).

Definition joiner_active : joiner :=
  {| heap := [active_temp; scenario_stop; full_stop_signal];
     currTemp := Some 0 |}.

Definition joiner_idle : joiner :=
  {| heap := [active_temp; scenario_stop; full_stop_signal];
     currTemp := None |}.

(** ** readline (src/unnamed/part_001) *)

Definition LF : ascii := "010"%char.

(** [s.split(sep)] for a one-character separator: the pieces between
    the separators, always at least one. *)
Fixpoint split (sep : ascii) (s : string) : list string :=
  match s with
  | EmptyString => [""]
  | String c s' =>
      if decide (c = sep) then "" :: split sep s'
      else
        match split sep s' with
        | piece :: pieces => String c piece :: pieces
        | [] => [String c ""]
        end
  end.

(** The three callbacks of [readline]; the state is [bufferedString].
    A chunk is modelled by the string it is appended as. *)
Definition readline_react (n : notif string) (bufferedString : string)
  : list (notif string) * string :=
  match n with
  | OnNext e =>
      let bufferedString := bufferedString +:+ e in
      let splits := split LF bufferedString in
      ((λ s, OnNext (s +:+ String LF "")) <$> take (length splits - 1) splits,
       default "" (splits !! (length splits - 1)))
  | OnError err => ([OnError err], bufferedString)
  | OnCompleted => ([OnNext bufferedString; OnCompleted], bufferedString)
  end.

(** What the subscriber of [upstream.readline()] receives. *)
Definition readline (input : list (notif string)) : list (notif string) :=
  (link readline_react input "").1.

(** The elements are Buffers: [bufferedString += e] appends the string
    form of the chunk [e], which is the chunk's bytes decoded on their
    own, whatever the chunks before and after hold. *)
Section Buffers.
(** [String(e)] for a Buffer [e], node's [Buffer.prototype.toString]. *)
Variable Buffer_toString : list Byte.byte → string.

Definition appended (n : notif (list Byte.byte)) : notif string :=
  match n with
  | OnNext e => OnNext (Buffer_toString e)
  | OnError err => OnError err
  | OnCompleted => OnCompleted
  end.

Definition readline_buffers (input : list (notif (list Byte.byte)))
  : list (notif string) :=
  readline (appended <$> input).
End Buffers.

(** No line feed in the string. *)
Fixpoint lf_free (s : string) : bool :=
  match s with
  | EmptyString => true
  | String c s' => if decide (c = LF) then false else lf_free s'
  end.

(** The complete lines of a buffer and what stays pending after them. *)
Definition complete (s : string) : list string :=
  take (length (split LF s) - 1) (split LF s).

Definition pending (s : string) : string :=
  default "" (split LF s !! (length (split LF s) - 1)).

Definition terminated (line : string) : string := line +:+ String LF "".

(** The concatenation of strings. *)
Definition join (ss : list string) : string := foldr String.append "" ss.

(** ** sort (src/unnamed/part_001) *)

(** The three Rx operators [sort] chains, on synchronous streams. *)

(** [toArray()]: the elements are collected; on completion the array is
    sent, then the completion; an error is passed on alone. *)
Fixpoint toArray_from {A} (asArray : list A) (input : list (notif A))
  : list (notif (list A)) :=
  match input with
  | [] => []
  | OnNext a :: input' => toArray_from (asArray ++ [a]) input'
  | OnError err :: _ => [OnError err]
  | OnCompleted :: _ => [OnNext asArray; OnCompleted]
  end.

Definition toArray {A} (input : list (notif A)) : list (notif (list A)) :=
  toArray_from [] input.

(** [rx.Observable.fromArray(arr)]. *)
Definition fromArray {A} (arr : list A) : list (notif A) :=
  (OnNext <$> arr) ++ [OnCompleted].

(** How an inner observable of [flatMap] ends, having sent its values. *)
Inductive inner_end : Type :=
  | InnerOpen
  | InnerCompleted
  | InnerError (err : exn).

Fixpoint inner_run {B} (ns : list (notif B)) : list B * inner_end :=
  match ns with
  | [] => ([], InnerOpen)
  | OnNext b :: ns' => let '(bs, ended) := inner_run ns' in (b :: bs, ended)
  | OnError err :: _ => ([], InnerError err)
  | OnCompleted :: _ => ([], InnerCompleted)
  end.

(** [flatMap(f)]: the values of each inner observable are passed on; an
    inner or outer error ends the result; the result completes when the
    outer observable has completed and no inner one is still open. *)
Fixpoint flatMap_from {A B} (f : A → list (notif B)) (inner_open : bool)
    (input : list (notif A)) : list (notif B) :=
  match input with
  | [] => []
  | OnNext a :: input' =>
      match inner_run (f a) with
      | (bs, InnerError err) => (OnNext <$> bs) ++ [OnError err]
      | (bs, InnerCompleted) =>
          (OnNext <$> bs) ++ flatMap_from f inner_open input'
      | (bs, InnerOpen) => (OnNext <$> bs) ++ flatMap_from f true input'
      end
  | OnError err :: _ => [OnError err]
  | OnCompleted :: _ => if inner_open then [] else [OnCompleted]
  end.

Definition flatMap {A B} (f : A → list (notif B)) (input : list (notif A))
  : list (notif B) :=
  flatMap_from f false input.

Section Sort.
Context {A : Type}.
(** [asArray.sort(fn)], for the comparison function given to [sort]. *)
Variable array_sort : list A → list A.

Definition sort (input : list (notif A)) : list (notif A) :=
  flatMap (λ asArray, fromArray (array_sort asArray)) (toArray input).
End Sort.

(** ** splitMerge (src/unnamed/part_001) *)

(** The order in which [Object.keys] lists own property names: the
    array indices first, in ascending numeric order, then the other names
    in the order the properties were added.  An array index is the
    canonical numeral of a number below 2^32 - 1. *)
Definition digit (c : ascii) : option N :=
  let n := N_of_ascii c in
  if decide (48 ≤ n ∧ n ≤ 57)%N then Some (n - 48)%N else None.

Fixpoint numeral_from (acc : N) (s : string) : option N :=
  match s with
  | EmptyString => Some acc
  | String c s' =>
      match digit c with
      | Some d => numeral_from (10 * acc + d) s'
      | None => None
      end
  end.

Definition array_index (key : string) : option N :=
  match key with
  | EmptyString => None
  | String c rest =>
      if decide (c = "0"%char ∧ rest ≠ EmptyString) then None
      else
        match numeral_from 0 key with
        | Some n => if decide (n < 2 ^ 32 - 1)%N then Some n else None
        | None => None
        end
  end.

Definition index_keys (keys : list string) : list (N * string) :=
  omap (λ key, (λ i, (i, key)) <$> array_index key) keys.

Definition index_le (a b : N * string) : Prop := (a.1 ≤ b.1)%N.

#[global] Instance index_le_dec : RelDecision index_le.
Proof. intros a b. unfold index_le. apply _. Defined.

Definition Object_keys_order (keys : list string) : list string :=
  (merge_sort index_le (index_keys keys)).*2
  ++ filter (λ key, array_index key = None) keys.

(** Tables held in an object literal: the own properties, in the order
    they were added. *)
Section Table.
Context {V : Type}.

Fixpoint table_get (key : string) (t : list (string * V)) : option V :=
  match t with
  | [] => None
  | (k, v) :: t' => if decide (k = key) then Some v else table_get key t'
  end.

Fixpoint table_set (key : string) (v : V) (t : list (string * V))
  : list (string * V) :=
  match t with
  | [] => [(key, v)]
  | (k, v') :: t' =>
      if decide (k = key) then (k, v) :: t'
      else (k, v') :: table_set key v t'
  end.

Fixpoint table_delete (key : string) (t : list (string * V))
  : list (string * V) :=
  match t with
  | [] => []
  | (k, v) :: t' =>
      if decide (k = key) then table_delete key t'
      else (k, v) :: table_delete key t'
  end.

(** [Object.keys(t)]. *)
Definition table_keys (t : list (string * V)) : list string :=
  Object_keys_order t.*1.
End Table.

Section SplitMerge.
Context {E O : Type}.

(** The observable a handler returns for a flow, as its subscriber sees
    it: what it sends when it is subscribed, when the flow is pushed an
    event (after the events pushed before), and when the flow
    completes. *)
Record handled : Type := Handled {
  at_subscribe : list (notif O);
  at_next : list E → E → list (notif O);
  at_completed : list E → list (notif O);
}.

(** The two forms of the [handlers] argument; a call of a handler
    returns an observable or throws. *)
Inductive handlers_arg : Type :=
  | ByKeyFunction (f : string → res handled)
  | ByKeyTable (handlersObj : gmap string (res handled)).

(** Lines 149-158: the table form becomes a function that throws on a
    key without entry.  The function is called at line 171 only, for a
    key with [flows[key] == null]: such a key names no property inherited
    from [Object.prototype], so that [handlersObj[key]] is a property the
    table has or [undefined]. *)
Definition normalize (handlers : handlers_arg) : string → res handled :=
  match handlers with
  | ByKeyFunction f => f
  | ByKeyTable handlersObj =>
      fun key =>
        match handlersObj !! key with
        | None => Throw (JsError ("Unknown key[" +:+ key +:+ "]."))
        | Some handler => handler
        end
  end.

(** A flow: the [rx.Subject], the events it was pushed, the observable
    its handler made of it, and whether the subscription to that
    observable is still live (it ends with the observable's error or
    completion). *)
Record flow : Type := Flow {
  pushed : list E;
  handler_output : handled;
  subscribed : bool;
  isStopped : bool;
}.

(** The state of one subscription of [splitMerge]: the [flows] table,
    the calls [handlers(key, flow)] made so far, and the calls made on
    the output observer. *)
Record merger : Type := Merger {
  flows : list (string * flow);
  calls : list string;
  output : list (notif O);
}.

Definition merger_init : merger :=
  {| flows := []; calls := []; output := [] |}.

Definition emit (n : notif O) (m : merger) : merger :=
  {| flows := flows m; calls := calls m; output := output m ++ [n] |}.

(** Lines 172-185: the three callbacks subscribed to a handler's
    observable. *)
Definition flow_onNext (e : O) (m : merger) : merger := emit (OnNext e) m.

Definition flow_onError (err : exn) (m : merger) : merger :=
  emit (OnError err) m.

Definition flow_onCompleted (theKey : string) (m : merger) : merger :=
  let m' := {| flows := table_delete theKey (flows m);
               calls := calls m; output := output m |} in
  if decide (length (table_keys (flows m')) = 0) then emit OnCompleted m'
  else m'.

(** The notifications of a handler's observable reach the callbacks
    until the first error or completion; the result tells whether the
    subscription is still live. *)
Fixpoint deliver (key : string) (ns : list (notif O)) (m : merger)
  : bool * merger :=
  match ns with
  | [] => (true, m)
  | OnNext e :: ns' => deliver key ns' (flow_onNext e m)
  | OnError err :: _ => (false, flow_onError err m)
  | OnCompleted :: _ => (false, flow_onCompleted key m)
  end.

Definition with_flow (key : string) (f : flow) (m : merger) : merger :=
  {| flows := table_set key f (flows m); calls := calls m;
     output := output m |}.

(** The flow object changes where it is; the table is touched only
    if it still holds the flow. *)
Definition store_flow (key : string) (f : flow) (m : merger) : merger :=
  match table_get key (flows m) with
  | Some _ => with_flow key f m
  | None => m
  end.

(** Line 191, [flow.onNext(e)], for the flow held at [key]. *)
Definition flow_push (key : string) (e : E) (m : merger) : merger :=
  match table_get key (flows m) with
  | None => m
  | Some f =>
      if isStopped f || negb (subscribed f) then m
      else
        let '(live, m') :=
          deliver key (at_next (handler_output f) (pushed f) e) m in
        store_flow key
          {| pushed := pushed f ++ [e]; handler_output := handler_output f;
             subscribed := live; isStopped := isStopped f |} m'
  end.

(** Line 202, [flows[key].onCompleted()].  The key was just read off the
    table, and the completion of a flow removes its own key only, so the
    flow is there. *)
Definition flow_complete (key : string) (m : merger) : merger :=
  match table_get key (flows m) with
  | None => m
  | Some f =>
      if isStopped f then m
      else if negb (subscribed f) then
        with_flow key
          {| pushed := pushed f; handler_output := handler_output f;
             subscribed := false; isStopped := true |} m
      else
        let '(live, m') :=
          deliver key (at_completed (handler_output f) (pushed f)) m in
        store_flow key
          {| pushed := pushed f; handler_output := handler_output f;
             subscribed := live; isStopped := true |} m'
  end.

Variable selector : E → string.
Variable handlers : handlers_arg.

(** Lines 165-192: the [onNext] of the observer given to [link].  The
    second component is the exception it throws, if any.  [flows[key]]
    is looked up in an object literal: for a key that names an inherited
    property it is neither null nor a flow, no flow is made, and
    [flow.onNext] is not a function. *)
Definition splitMerge_onNext (e : E) (m : merger) : merger * option exn :=
  let key := selector e in
  match property_of (table_get key (flows m)) key with
  | Own _ => (flow_push key e m, None)
  | Inherited _ => (m, Some TypeError)
  | Undefined =>
      let m := {| flows := flows m; calls := calls m ++ [key];
                  output := output m |} in
      match normalize handlers key with
      | Throw x => (m, Some x)
      | Ret h =>
          let '(live, m) := deliver key (at_subscribe h) m in
          let m :=
            with_flow key
              {| pushed := []; handler_output := h; subscribed := live;
                 isStopped := false |} m in
          (flow_push key e m, None)
      end
  end.

(** Lines 193-195. *)
Definition splitMerge_onError (err : exn) (m : merger) : merger :=
  emit (OnError err) m.

(** Lines 196-205. *)
Definition splitMerge_onCompleted (m : merger) : merger :=
  let flowKeys := table_keys (flows m) in
  if decide (length flowKeys = 0) then emit OnCompleted m
  else foldl (λ m key, flow_complete key m) m flowKeys.

(** The upstream side of a subscription: live, or stopped by the
    upstream's error or completion.  An exception thrown out of [onNext]
    goes to the upstream, which called it; the observer is as live as it
    was. *)
Inductive upstream : Type :=
  | Live
  | Stopped.

(** The output observer is the one [rx.Observable.create] hands to
    [link]'s function: it passes on what it is sent up to the first
    error or completion, and then disposes the upstream subscription. *)
Fixpoint delivered (ns : list (notif O)) : list (notif O) :=
  match ns with
  | [] => []
  | n :: ns' => if terminal n then [n] else n :: delivered ns'
  end.

Definition detached (m : merger) : bool := existsb terminal (output m).

(** One notification of the upstream: the state it leaves and the
    exception it throws back, if any. *)
Definition splitMerge_call (s : merger * upstream) (n : notif E)
  : (merger * upstream) * option exn :=
  match s with
  | (m, Live) =>
      if detached m then (s, None)
      else
        match n with
        | OnNext e =>
            let '(m', thrown) := splitMerge_onNext e m in ((m', Live), thrown)
        | OnError err => ((splitMerge_onError err m, Stopped), None)
        | OnCompleted => ((splitMerge_onCompleted m, Stopped), None)
        end
  | (m, Stopped) => (s, None)
  end.

Definition splitMerge_step (s : merger * upstream) (n : notif E)
  : merger * upstream :=
  (splitMerge_call s n).1.

(** One subscription of [upstream.splitMerge(selector, handlers)] fed
    the notifications the upstream sends it. *)
Definition splitMerge (input : list (notif E)) : merger * upstream :=
  foldl splitMerge_step (merger_init, Live) input.

(** The exceptions thrown back to the upstream on the way, in order. *)
Fixpoint thrown_from (s : merger * upstream) (input : list (notif E))
  : list exn :=
  match input with
  | [] => []
  | n :: input' =>
      let '(s', thrown) := splitMerge_call s n in
      option_list thrown ++ thrown_from s' input'
  end.

Definition splitMerge_thrown (input : list (notif E)) : list exn :=
  thrown_from (merger_init, Live) input.

(** A handler whose observable does not complete before its flow does:
    neither when it is subscribed nor in reaction to an event. *)
Definition completes_with_flow (h : handled) : Prop :=
  (OnCompleted ∉ at_subscribe h)
  ∧ (∀ earlier e, OnCompleted ∉ at_next h earlier e).

Definition patient : Prop :=
  ∀ key h, normalize handlers key = Ret h → completes_with_flow h.

Definition flows_patient (m : merger) : Prop :=
  ∀ k f, table_get k (flows m) = Some f →
         completes_with_flow (handler_output f).

(** Every call of the handlers for an event of the input returns. *)
Definition returning (input : list (notif E)) : Prop :=
  ∀ e, OnNext e ∈ input → ∃ h, normalize handlers (selector e) = Ret h.

(** While the upstream is live and no handler has completed early, the
    output has not completed. *)
Definition unfinished (s : merger * upstream) : Prop :=
  s.2 = Live → flows_patient s.1 ∧ (OnCompleted ∉ output s.1).

(** When moreover the calls of the handlers have returned, the table
    holds exactly the keys the handlers were called for, added in that
    order. *)
Definition orderly (s : merger * upstream) : Prop :=
  NoDup (calls s.1) ∧ (s.2 = Live → (flows s.1).*1 = calls s.1).

(** A handler whose observable sends values only, as long as its flow is
    open: no error and no completion when it is subscribed or in reaction
    to an event. *)
Definition steady (h : handled) : Prop :=
  Forall (λ n, terminal n = false) (at_subscribe h)
  ∧ (∀ earlier e, Forall (λ n, terminal n = false) (at_next h earlier e)).

(** The events of a sequence that carry a key, in order. *)
Definition events_of (key : string) (es : list E) : list E :=
  filter (λ e, selector e = key) es.

(** What the handlers' observables, [hk key] for each key, send for an
    event that comes after the events [seen]: the first event of a key
    gets its handler subscribed, and every event is answered by the
    handler of its key, which has seen the earlier events of that key. *)
Definition answer (hk : string → handled) (seen : list E) (e : E)
  : list (notif O) :=
  (if decide (selector e ∈ selector <$> seen) then []
   else at_subscribe (hk (selector e)))
  ++ at_next (hk (selector e)) (events_of (selector e) seen) e.

Fixpoint answers_from (hk : string → handled) (seen es : list E)
  : list (notif O) :=
  match es with
  | [] => []
  | e :: es' => answer hk seen e ++ answers_from hk (seen ++ [e]) es'
  end.

Definition answers (hk : string → handled) (es : list E) : list (notif O) :=
  answers_from hk [] es.

(** The flow of a key after the events [es], while all goes well. *)
Definition open_flow (hk : string → handled) (key : string) (es : list E)
  : flow :=
  {| pushed := events_of key es; handler_output := hk key;
     subscribed := true; isStopped := false |}.

(** A key that gets a flow, whose handler is [hk key]: it does not name
    an inherited property, and the call of the handlers returns. *)
Definition routable (hk : string → handled) (key : string) : Prop :=
  (key ∉ Object_prototype) ∧ normalize handlers key = Ret (hk key).

(** The state after the events [es], while all goes well: the own
    properties of the table are the keys the handlers were called for,
    added in that order. *)
Definition routed (hk : string → handled) (es : list E) (m : merger)
  : Prop :=
  (flows m).*1 = calls m
  ∧ NoDup (calls m)
  ∧ (∀ k, k ∈ calls m ↔ k ∈ selector <$> es)
  ∧ (∀ k f, table_get k (flows m) = Some f → f = open_flow hk k es)
  ∧ output m = answers hk es.

(** The flow of [key] is in the table, its handler's observable will not
    complete in reaction to the flow's completion (or the flow has been
    completed already), and the output has not been completed. *)
Definition blocked (key : string) (m : merger) : Prop :=
  (OnCompleted ∉ output m)
  ∧ ∃ f, table_get key (flows m) = Some f
         ∧ (isStopped f = true
            ∨ OnCompleted ∉ at_completed (handler_output f) (pushed f)).


End SplitMerge.

Arguments handled : clear implicits.
Arguments handlers_arg : clear implicits.
Arguments flow : clear implicits.
Arguments merger : clear implicits.

(** Two handlers: the identity, and [flow.take(1)]. *)
Definition identity_handler {E} : handled E E :=
  {| at_subscribe := [];
     at_next := λ _ e, [OnNext e];
     at_completed := λ _, [OnCompleted] |}.

(** [flow.map(g)]. *)
Definition map_handler {E O} (g : E → O) : handled E O :=
  {| at_subscribe := [];
     at_next := λ _ e, [OnNext (g e)];
     at_completed := λ _, [OnCompleted] |}.

Definition take1_handler {E} : handled E E :=
  {| at_subscribe := [];
     at_next := λ earlier e,
       match earlier with
       | [] => [OnNext e; OnCompleted]
       | _ => []
       end;
     at_completed := λ earlier,
       match earlier with
       | [] => [OnCompleted]
       | _ => []
       end |}.

(** Handlers for instances: [take(1)] for key A and the identity for the
    other keys; a table with the identity for key A alone. *)
Definition take1_for_A : handlers_arg string string :=
  ByKeyFunction
    (λ key, Ret (if decide (key = "A") then take1_handler
                 else identity_handler)).

Definition only_A : handlers_arg string string :=
  ByKeyTable {["A" := Ret identity_handler]}.

(** [flow.concat(rx.Observable.return(last))]: the flow, ended with a
    last word. *)
Definition closing_handler (last : string) : handled string string :=
  {| at_subscribe := [];
     at_next := λ _ e, [OnNext e];
     at_completed := λ _, [OnNext last; OnCompleted] |}.

Definition closing_by_key : handlers_arg string string :=
  ByKeyFunction (λ key, Ret (closing_handler ("end of " +:+ key))).



(** An observable that sends what it is pushed and never completes. *)
Definition endless_handler {E} : handled E E :=
  {| at_subscribe := [];
     at_next := λ _ e, [OnNext e];
     at_completed := λ _, [] |}.

Definition endless_for_A : handlers_arg string string :=
  ByKeyFunction
    (λ key, Ret (if decide (key = "A") then endless_handler
                 else identity_handler)).

(** * Facts *)

(** A given name is not in a given list of names. *)
Ltac not_listed :=
  let Hin := fresh "Hin" in
  intros Hin;
  repeat (apply elem_of_cons in Hin as [Hin|Hin]; [discriminate Hin|]);
  by apply elem_of_nil in Hin.

(** ** Strings *)

Lemma string_app_nil_r (s : string) : s +:+ "" = s.
Proof.
  induction s as [|c s IH]; [done|].
  change (String c (s +:+ "") = String c s). by rewrite IH.
Qed.

Lemma string_app_assoc (s1 s2 s3 : string) :
  (s1 +:+ s2) +:+ s3 = s1 +:+ s2 +:+ s3.
Proof.
  induction s1 as [|c s1 IH]; [done|].
  change (String c ((s1 +:+ s2) +:+ s3) = String c (s1 +:+ s2 +:+ s3)).
  by rewrite IH.
Qed.

(** ** The idifier *)

Lemma nullish_get_insert_id (e : event) (id : string) :
  nullish (get (<["id" := VStr id]> e) "id") = false.
Proof. unfold get. by rewrite lookup_insert_eq. Qed.

Section IdifierFacts.
Variable sha1 : string → string.
Variable encodeBuffer : string → string.

#[local] Abbreviation hashVals := (hashVals sha1 encodeBuffer).
#[local] Abbreviation buildHasher := (buildHasher sha1 encodeBuffer).
#[local] Abbreviation idifiers := (idifiers sha1 encodeBuffer).
#[local] Abbreviation idify := (idify sha1 encodeBuffer).
#[local] Abbreviation recipe_id := (recipe_id sha1 encodeBuffer).
#[local] Abbreviation idify_by_recipe := (idify_by_recipe sha1 encodeBuffer).

(** Feeding the hasher value by value is feeding it the concatenation. *)
Lemma hashVals_update_concat (hasher : string) (vals : list val) :
  hashVals_update hasher vals
  = hasher +:+ String.concat "" (map js_String vals).
Proof.
  revert hasher. induction vals as [|v vals IH]; intros hasher; cbn.
  - by rewrite string_app_nil_r.
  - rewrite IH, string_app_assoc. f_equal.
    destruct vals as [|v' vals]; cbn; [by rewrite string_app_nil_r|done].
Qed.

(** The getters run in recipe order and stop at the first field that is
    null or absent. *)
Lemma call_getters_find (fields : list string) (e : event) :
  call_getters (map getter fields) e
  = match List.find (λ f, nullish (get e f)) fields with
    | Some f =>
        Throw (ISE "Unable to make id for event type[%s], no field[%s]"
                   [get e "type"; VStr f])
    | None => Ret (map (get e) fields)
    end.
Proof.
  induction fields as [|f fields IH]; [done|].
  cbn [map call_getters List.find].
  replace (getter f e) with
    (if nullish (get e f)
     then Throw (ISE "Unable to make id for event type[%s], no field[%s]"
                     [get e "type"; VStr f])
     else Ret (get e f)) by done.
  destruct (nullish (get e f)); cbn; [done|].
  rewrite IH. by destruct (List.find _ fields).
Qed.

Lemma buildHasher_find (fields : list string) (e : event) :
  buildHasher fields e
  = match List.find (λ f, nullish (get e f)) fields with
    | Some f =>
        Throw (ISE "Unable to make id for event type[%s], no field[%s]"
                   [get e "type"; VStr f])
    | None => Ret (recipe_id fields e)
    end.
Proof.
  unfold buildHasher. rewrite call_getters_find.
  destruct (List.find _ fields); [done|]. cbn.
  unfold mret, res_ret, hashVals, recipe_id. do 3 f_equal.
  rewrite hashVals_update_concat, map_map. done.
Qed.

(** The table [idifiers] holds the hasher of each registered recipe. *)
Lemma idifiers_lookup (type : string) :
  idifiers !! type = buildHasher <$> registered_recipe type.
Proof.
  unfold registered_recipe, idifiers.
  repeat case_decide; subst; try reflexivity.
  - repeat match goal with
           | H : _ ∈ _ :: _ |- _ => apply elem_of_cons in H as [->|H]
           | H : _ ∈ [] |- _ => by apply elem_of_nil in H
           end; reflexivity.
  - cbn [list_to_map foldr fst snd uncurry].
    repeat match goal with
           | H : ¬ (_ ∈ _ :: _) |- _ =>
               apply not_elem_of_cons in H as [? H]
           end.
    rewrite !lookup_insert_ne by done. apply lookup_empty.
Qed.

Lemma idify_registered (e : event) (type : string) (recipe : list string) :
  nullish (get e "id") = true →
  js_String (get e "type") = type →
  registered_recipe type = Some recipe →
  idify e = idify_by_recipe recipe e.
Proof.
  intros Hid Htype Hrecipe. unfold idify, idify_by_recipe.
  rewrite Hid, Htype, idifiers_lookup, Hrecipe. cbn.
  rewrite buildHasher_find. by destruct (List.find _ recipe).
Qed.

(** A type without hasher that names no inherited property. *)
Lemma idify_unregistered (e : event) :
  nullish (get e "id") = true →
  registered_recipe (js_String (get e "type")) = None →
  js_String (get e "type") ∉ Object_prototype →
  idify e
  = Threw (ISE "Unknown event type[%s] for idification. ts[%s]"
               [get e "type"; get e "ts"]) e.
Proof.
  intros Hid Hnone Hown. unfold idify.
  rewrite Hid, idifiers_lookup, Hnone. cbn. by rewrite decide_False.
Qed.



(** What a call of an inherited property returns is not null. *)
Lemma call_inherited_returned (name : string) (id : val) :
  call_inherited name = Ret id → nullish id = false.
Proof.
  unfold call_inherited. repeat case_decide; by intros [= <-].
Qed.


Lemma idify_returned_id (e e' : event) :
  idify e = Returned e' →
  nullish (get e "id") = true →
  ∃ id, e' = <["id" := id]> e ∧ nullish id = false.
Proof.
  unfold idify. intros H Hid. rewrite Hid in H. cbn zeta in H.
  destruct (property_of _ _) as [handler|handler|]; [| |done].
  - destruct (handler e) as [id|]; [|done]. exists (VStr id).
    split; [congruence|done].
  - destruct (call_inherited handler) as [id|] eqn:Hcall; [|done].
    exists id. split; [congruence|by eapply call_inherited_returned].
Qed.
End IdifierFacts.

(** C2, as amended: for every event without a pre-existing id whose type is
    registered, [idify] computes the id from the type's recipe, that is by
    concatenating the string forms of the recipe's fields in order, hashing
    and encoding, where the recipes are basal: (type, deliveryType,
    deviceId, ts); bolus: (type, subType, deviceId, ts); cbg, smbg,
    settings and wizard: (type, deviceId, ts); deviceMeta: (type, subType,
    ts). *)
Theorem idify_recipe_by_type (sha1 encodeBuffer : string → string)
    (e : event) (type : string) (recipe : list string) :
  nullish (get e "id") = true →
  get e "type" = VStr type →
  registered_recipe type = Some recipe →
  idify sha1 encodeBuffer e = idify_by_recipe sha1 encodeBuffer recipe e.
Proof.
  intros Hid Htype Hrecipe.
  apply idify_registered with type; [done| |done]. by rewrite Htype.
Qed.

Lemma idify_recipe_by_type_witness :
  idify (λ s, s) (λ s, s) wizard_event
  = idify_by_recipe (λ s, s) (λ s, s) ["type"; "deviceId"; "ts"] wizard_event.
Proof.
  apply (idify_recipe_by_type (λ s, s) (λ s, s) wizard_event "wizard");
    reflexivity.
Defined.

(** C2, as stated, fails: whatever the digest, [idify] does not follow the
    recipe table of the claim, in which wizard goes with deviceMeta.  A
    wizard event that has its type, subType and ts but no deviceId is not
    idified from (type, subType, ts); the code asks for its deviceId. *)
Lemma idify_wizard_not_by_subType :
  ¬ ∃ sha1 encodeBuffer : string → string,
      ∀ (e : event) (type : string) (recipe : list string),
        nullish (get e "id") = true →
        get e "type" = VStr type →
        spec_recipe type = Some recipe →
        idify sha1 encodeBuffer e = idify_by_recipe sha1 encodeBuffer recipe e.
Proof.
  intros (sha1 & encodeBuffer & H).
  specialize (H wizard_event_no_device "wizard" ["type"; "subType"; "ts"]
                eq_refl eq_refl eq_refl).
  vm_compute in H. discriminate H.
Qed.

(** C7: [idify] returns an event whose id is already set unchanged, and a
    second call on the event a first call returned returns that same
    event, hence the same id. *)
Theorem idify_idempotent (sha1 encodeBuffer : string → string) (e : event) :
  (nullish (get e "id") = false → idify sha1 encodeBuffer e = Returned e) ∧
  (∀ e', idify sha1 encodeBuffer e = Returned e' →
         idify sha1 encodeBuffer e' = Returned e'
         ∧ nullish (get e' "id") = false).
Proof.
  assert (Hset : ∀ e0 : event, nullish (get e0 "id") = false →
                 idify sha1 encodeBuffer e0 = Returned e0).
  { intros e0 H0. unfold idify. by rewrite H0. }
  split; [apply Hset|].
  intros e' Hret.
  assert (nullish (get e' "id") = false) as Hid'.
  { destruct (nullish (get e "id")) eqn:Hid.
    - destruct (idify_returned_id _ _ _ _ Hret Hid) as (id & -> & Hnull).
      unfold get. by rewrite lookup_insert_eq.
    - rewrite (Hset e Hid) in Hret. by injection Hret as <-. }
  auto.
Qed.

Lemma idify_idempotent_witness :
  idify (λ s, s) (λ s, s) (<["id" := VStr "given"]> wizard_event)
  = Returned (<["id" := VStr "given"]> wizard_event)
  ∧ idify (λ s, s) (λ s, s) (<["id" := VStr "wizardd1100"]> wizard_event)
    = Returned (<["id" := VStr "wizardd1100"]> wizard_event).
Proof.
  split.
  - apply (proj1 (idify_idempotent (λ s, s) (λ s, s) _)). reflexivity.
  - apply (proj2 (idify_idempotent (λ s, s) (λ s, s) wizard_event)).
    vm_compute. reflexivity.
Defined.




(** The three ways a type that names an inherited property goes. *)
Lemma idify_inherited_types (sha1 encodeBuffer : string → string) :
  idify sha1 encodeBuffer toString_event
  = Returned (<["id" := VStr "[object Undefined]"]> toString_event)
  ∧ idify sha1 encodeBuffer constructor_event
    = Returned (<["id" := VObj]> constructor_event)
  ∧ idify sha1 encodeBuffer valueOf_event = Threw TypeError valueOf_event.
Proof. repeat split; by vm_compute. Qed.

(** ** lodash and the store *)

Lemma pick_loop_lookup (object : event) (props : list string)
    (result : event) (k : string) :
  pick_loop object props result !! k
  = if decide (k ∈ props) then
      match object !! k with
      | Some v => Some v
      | None => result !! k
      end
    else result !! k.
Proof.
  revert result. induction props as [|p props IH]; intros result; cbn.
  - by rewrite decide_False by apply not_elem_of_nil.
  - rewrite IH. destruct (decide (k = p)) as [->|Hne].
    + rewrite (decide_True (P := p ∈ p :: props)) by apply list_elem_of_here.
      destruct (object !! p) as [v|] eqn:Hp.
      * rewrite lookup_insert_eq. by destruct (decide (p ∈ props)).
      * by destruct (decide (p ∈ props)).
    + assert (k ∈ p :: props ↔ k ∈ props) as Hiff.
      { rewrite elem_of_cons. intuition congruence. }
      assert ((match object !! p with
               | Some v => <[p:=v]> result
               | None => result
               end) !! k = result !! k) as ->.
      { destruct (object !! p); [by rewrite lookup_insert_ne|done]. }
      destruct (decide (k ∈ props)) as [Hin|Hnin].
      * by rewrite decide_True by by apply Hiff.
      * by rewrite decide_False by by rewrite Hiff.
Qed.

Lemma pick_lookup (object : event) (props : list string) (k : string) :
  pick object props !! k = if decide (k ∈ props) then object !! k else None.
Proof.
  unfold pick. rewrite pick_loop_lookup, lookup_empty.
  case_decide; [|done]. by destruct (object !! k).
Qed.

Lemma assign_lookup (object source : event) (k : string) :
  assign object source !! k
  = match source !! k with
    | Some v => Some v
    | None => object !! k
    end.
Proof.
  unfold assign. rewrite lookup_union.
  by destruct (source !! k), (object !! k).
Qed.

Lemma deref_alloc_old (h : store) (e : event) (l : loc) :
  l < length h → deref (alloc h e).2 l = deref h l.
Proof. intros Hl. unfold deref, alloc. cbn. by rewrite lookup_app_l. Qed.

Lemma deref_alloc_new (h : store) (e : event) :
  deref (alloc h e).2 (alloc h e).1 = e.
Proof.
  unfold deref, alloc. cbn.
  rewrite lookup_app_r, Nat.sub_diag by done. done.
Qed.

(** ** The temp-basal joiner *)

Lemma temp_stop_lookup (e : event) (tempId : val) (k : string) :
  temp_stop e tempId !! k
  = if decide (k = "deliveryType") then Some (VStr "temp-stop")
    else if decide (k = "tempId") then Some tempId
    else if decide (k ∈ ["type"; "deviceTime"; "deviceId"; "source"])
         then e !! k
    else None.
Proof.
  unfold temp_stop. rewrite assign_lookup, pick_lookup.
  destruct (decide (k = "deliveryType")) as [->|?]; [done|].
  rewrite lookup_insert_ne by done.
  destruct (decide (k = "tempId")) as [->|?]; [done|].
  by rewrite lookup_singleton_ne.
Qed.

Lemma tempBasalJoin_stop_active (l : loc) (j : joiner) (theTemp : loc) :
  get (deref (heap j) l) "type" = VStr "basal" →
  get (deref (heap j) l) "deliveryType" = VStr "temp" →
  get (deref (heap j) l) "duration" = VNum 0 →
  currTemp j = Some theTemp →
  tempBasalJoin l j
  = ([length (heap j)],
     {| heap := heap j
                ++ [temp_stop (deref (heap j) l)
                      (get (deref (heap j) theTemp) "id")];
        currTemp := None |}).
Proof.
  intros Htype Hdelivery Hduration Hcurr.
  unfold tempBasalJoin, keep, tempBasalJoin_fn.
  rewrite decide_True by done. rewrite decide_True by done.
  by rewrite Hcurr.
Qed.

Lemma tempBasalJoin_stop_idle (l : loc) (j : joiner) :
  get (deref (heap j) l) "type" = VStr "basal" →
  get (deref (heap j) l) "deliveryType" = VStr "temp" →
  get (deref (heap j) l) "duration" = VNum 0 →
  currTemp j = None →
  tempBasalJoin l j = ([], j).
Proof.
  intros Htype Hdelivery Hduration Hcurr.
  unfold tempBasalJoin, keep, tempBasalJoin_fn.
  rewrite decide_True by done. rewrite decide_True by done.
  by rewrite Hcurr.
Qed.

(** C6: a temp-delivery basal event of zero duration, given to the joiner
    while a temp is active, makes it emit exactly one event, a new one
    that carries the original's type, deviceTime, deviceId and source,
    deliveryType 'temp-stop' and as tempId the id of the remembered temp;
    the state becomes idle and the original is not emitted (and is left as
    it was).  Given while the joiner is idle, it emits nothing, changes
    nothing, and there is no error. *)
Theorem tempBasalJoin_stop_signal (l : loc) (j : joiner) :
  l < length (heap j) →
  get (deref (heap j) l) "type" = VStr "basal" →
  get (deref (heap j) l) "deliveryType" = VStr "temp" →
  get (deref (heap j) l) "duration" = VNum 0 →
  (∀ theTemp, currTemp j = Some theTemp →
     ∃ l' j' stop,
       tempBasalJoin l j = ([l'], j')
       ∧ l' ≠ l ∧ deref (heap j') l' = stop
       ∧ Forall (λ k, get stop k = get (deref (heap j) l) k)
           ["type"; "deviceTime"; "deviceId"; "source"]
       ∧ get stop "deliveryType" = VStr "temp-stop"
       ∧ get stop "tempId" = get (deref (heap j) theTemp) "id"
       ∧ currTemp j' = None
       ∧ (∀ l0, l0 < length (heap j) →
                deref (heap j') l0 = deref (heap j) l0))
  ∧ (currTemp j = None → tempBasalJoin l j = ([], j)).
Proof.
  intros Hl Htype Hdelivery Hduration. split.
  - intros theTemp Hcurr.
    rewrite (tempBasalJoin_stop_active l j theTemp) by done.
    eexists _, _, _. split; [done|]. cbn [heap currTemp].
    split; [lia|].
    assert (∀ e, deref (heap j ++ [e]) (length (heap j)) = e) as Hnew.
    { intros e. apply (deref_alloc_new (heap j) e). }
    split; [apply Hnew|].
    split.
    { repeat constructor; unfold get; by rewrite temp_stop_lookup. }
    split; [unfold get; by rewrite temp_stop_lookup|].
    split; [unfold get; by rewrite temp_stop_lookup|].
    split; [done|].
    intros l0 Hl0. by apply (deref_alloc_old (heap j) _ l0).
  - by apply tempBasalJoin_stop_idle.
Qed.

Lemma tempBasalJoin_stop_signal_witness :
  (∃ l' j' stop,
     tempBasalJoin 2 joiner_active = ([l'], j')
     ∧ l' ≠ 2 ∧ deref (heap j') l' = stop
     ∧ Forall (λ k, get stop k = get full_stop_signal k)
         ["type"; "deviceTime"; "deviceId"; "source"]
     ∧ get stop "deliveryType" = VStr "temp-stop"
     ∧ get stop "tempId" = VStr "t100"
     ∧ currTemp j' = None
     ∧ (∀ l0, l0 < 3 →
              deref (heap j') l0 = deref (heap joiner_active) l0))
  ∧ tempBasalJoin 2 joiner_idle = ([], joiner_idle).
Proof.
  split.
  - apply (proj1 (tempBasalJoin_stop_signal 2 joiner_active
                    ltac:(cbn; lia) eq_refl eq_refl eq_refl) 0 eq_refl).
  - apply (proj2 (tempBasalJoin_stop_signal 2 joiner_idle
                    ltac:(cbn; lia) eq_refl eq_refl eq_refl) eq_refl).
Defined.

(** C10, as amended: the event synthesized for a zero-duration
    temp-delivery basal event while a temp is active has no field other
    than type, deviceTime, deviceId, source, deliveryType and tempId: it
    has deliveryType and tempId, and each of type, deviceTime, deviceId
    and source that the original has (type it always has).  In particular
    it has no ts and no duration, so the field ts that the basal recipe
    reads is missing. *)
Theorem temp_stop_fields (l : loc) (j : joiner) (theTemp : loc) :
  get (deref (heap j) l) "type" = VStr "basal" →
  get (deref (heap j) l) "deliveryType" = VStr "temp" →
  get (deref (heap j) l) "duration" = VNum 0 →
  currTemp j = Some theTemp →
  ∃ l' j' stop,
    tempBasalJoin l j = ([l'], j') ∧ deref (heap j') l' = stop
    ∧ dom stop
      = {["deliveryType"; "tempId"]}
        ∪ (dom (deref (heap j) l)
           ∩ {["type"; "deviceTime"; "deviceId"; "source"]})
    ∧ "type" ∈ dom stop
    ∧ stop !! "ts" = None ∧ stop !! "duration" = None
    ∧ nullish (get stop "ts") = true.
Proof.
  intros Htype Hdelivery Hduration Hcurr.
  rewrite (tempBasalJoin_stop_active l j theTemp) by done.
  eexists _, _, _. split; [done|]. cbn [heap].
  split; [apply (deref_alloc_new (heap j))|].
  set (e := deref (heap j) l) in *.
  set (stop := temp_stop e _).
  assert (dom stop
          = {["deliveryType"; "tempId"]}
            ∪ (dom e ∩ {["type"; "deviceTime"; "deviceId"; "source"]}))
    as Hdom.
  { apply set_eq. intros k.
    rewrite elem_of_dom. unfold stop. rewrite temp_stop_lookup.
    rewrite elem_of_union, elem_of_intersection, elem_of_dom.
    repeat case_decide; subst; set_solver. }
  split; [done|].
  split.
  { rewrite Hdom. apply elem_of_union_r, elem_of_intersection.
    split; [|set_solver].
    apply elem_of_dom. unfold get in Htype.
    destruct (e !! "type"); [done|discriminate]. }
  unfold get, stop. rewrite !temp_stop_lookup. done.
Qed.

Lemma temp_stop_fields_witness :
  ∃ l' j' stop,
    tempBasalJoin 1 joiner_active = ([l'], j') ∧ deref (heap j') l' = stop
    ∧ dom stop
      = {["deliveryType"; "tempId"]}
        ∪ (dom (deref (heap joiner_active) 1)
           ∩ {["type"; "deviceTime"; "deviceId"; "source"]})
    ∧ "type" ∈ dom stop
    ∧ stop !! "ts" = None ∧ stop !! "duration" = None
    ∧ nullish (get stop "ts") = true.
Proof.
  apply (temp_stop_fields 1 joiner_active 0); reflexivity.
Defined.

(** C10, as stated, fails: the stop signal of the end-to-end scenario has
    neither deviceTime nor source, and the event synthesized from it does
    not have the six fields. *)
Lemma temp_stop_not_six_fields :
  ¬ ∀ (l : loc) (j : joiner) (theTemp : loc),
      get (deref (heap j) l) "type" = VStr "basal" →
      get (deref (heap j) l) "deliveryType" = VStr "temp" →
      get (deref (heap j) l) "duration" = VNum 0 →
      currTemp j = Some theTemp →
      ∃ l' j',
        tempBasalJoin l j = ([l'], j')
        ∧ dom (deref (heap j') l')
          = {["type"; "deviceTime"; "deviceId"; "source"; "deliveryType";
              "tempId"]}.
Proof.
  intros H.
  destruct (H 1 joiner_active 0 eq_refl eq_refl eq_refl eq_refl)
    as (l' & j' & Hrun & Hdom).
  assert (is_Some (deref (heap j') l' !! "source")) as [v Hv].
  { apply elem_of_dom. rewrite Hdom. set_solver. }
  assert (([l'], j') = tempBasalJoin 1 joiner_active) as Heq by done.
  vm_compute in Heq. injection Heq as -> ->.
  vm_compute in Hv. discriminate Hv.
Qed.

(** ** The end-to-end scenario *)

(** C3, as amended: the two events of the scenario, through the joiner and
    then [idify], yield one output event and then the stream fails.  The
    output is the original temp event with the id hashed from (type,
    deliveryType, deviceId, ts=100).  The joiner does synthesize an event
    for the second one, with type, deviceId, deliveryType 'temp-stop' and
    tempId equal to the first event's id, but without ts: [idify] throws
    the missing-field error for ts on it, and it gets no id. *)
Theorem scenario_join_then_idify (sha1 encodeBuffer : string → string) :
  let r := join_then_idify sha1 encodeBuffer [0; 1] scenario [] in
  let id1 := encodeBuffer (sha1 "basaltempd1100") in
  emitted r = [0]
  ∧ recipe_id sha1 encodeBuffer ["type"; "deliveryType"; "deviceId"; "ts"]
      scenario_start = id1
  ∧ deref (heap (state r)) 0 = <["id" := VStr id1]> scenario_start
  ∧ deref (heap (state r)) 2
    = list_to_map [("type", VStr "basal"); ("deviceId", VStr "d1");
                   ("deliveryType", VStr "temp-stop");
                   ("tempId", VStr id1)]
  ∧ failure r
    = Some (ISE "Unable to make id for event type[%s], no field[%s]"
                [VStr "basal"; VStr "ts"])
  ∧ length (heap (state r)) = 3.
Proof. vm_compute. repeat split. Qed.

(** The same holds when the whole input goes through the joiner before
    any event is idified, except that the synthesized event then refers
    to no id: the temp's id is not assigned yet when it is read. *)
Lemma scenario_join_all_then_idify (sha1 encodeBuffer : string → string) :
  let joined := tempBasalJoin_run [0; 1] scenario in
  joined.1 = [0; 2]
  ∧ get (deref (heap joined.2) 2) "tempId" = VUndef
  ∧ idify sha1 encodeBuffer (deref (heap joined.2) 2)
    = Threw (ISE "Unable to make id for event type[%s], no field[%s]"
                 [VStr "basal"; VStr "ts"]) (deref (heap joined.2) 2).
Proof. vm_compute. repeat split. Qed.

(** C3, as stated, fails: whatever the digest, the scenario does not
    yield two output events. *)
Lemma scenario_not_two_outputs :
  ¬ ∃ (sha1 encodeBuffer : string → string) (l1 l2 : loc),
      let r := join_then_idify sha1 encodeBuffer [0; 1] scenario [] in
      emitted r = [l1; l2]
      ∧ failure r = None
      ∧ get (deref (heap (state r)) l1) "id"
        = VStr (encodeBuffer (sha1 "basaltempd1100"))
      ∧ get (deref (heap (state r)) l2) "deliveryType" = VStr "temp-stop"
      ∧ get (deref (heap (state r)) l2) "tempId"
        = get (deref (heap (state r)) l1) "id"
      ∧ get (deref (heap (state r)) l2) "id"
        = VStr (encodeBuffer (sha1 "basaltemp-stopd1200")).
Proof.
  intros (sha1 & encodeBuffer & l1 & l2 & Hemitted & _). discriminate Hemitted.
Qed.

(** ** readline *)

Lemma split_nonempty (sep : ascii) (s : string) : split sep s ≠ [].
Proof.
  destruct s as [|c s]; cbn; [done|].
  case_decide; [done|]. by destruct (split sep s).
Qed.

Lemma split_complete_pending (s : string) :
  split LF s = complete s ++ [pending s].
Proof.
  unfold complete, pending.
  pose proof (split_nonempty LF s) as Hne.
  destruct (split LF s) as [|p ps] using rev_ind; [done|]. clear IHps.
  rewrite length_app. cbn.
  replace (length ps + 1 - 1) with (length ps) by lia.
  rewrite take_app_length.
  by rewrite lookup_app_r, Nat.sub_diag by done.
Qed.

Lemma complete_pending_unique (s : string) (ls : list string) (p : string) :
  split LF s = ls ++ [p] → complete s = ls ∧ pending s = p.
Proof.
  rewrite split_complete_pending. intros H.
  apply app_inj_tail in H. done.
Qed.

Lemma split_cons_lf (s : string) :
  split LF (String LF s) = "" :: split LF s.
Proof. cbn. by rewrite decide_True. Qed.

Lemma split_cons_other (c : ascii) (s : string) :
  c ≠ LF →
  split LF (String c s)
  = String c (default "" (head (split LF s))) :: tail (split LF s).
Proof.
  intros Hc. cbn. rewrite decide_False by done.
  pose proof (split_nonempty LF s). by destruct (split LF s).
Qed.

(** Splitting a concatenation: the complete lines of the first part, then
    the split of its pending piece followed by the second part. *)
Lemma split_app (s1 s2 : string) :
  split LF (s1 +:+ s2) = complete s1 ++ split LF (pending s1 +:+ s2).
Proof.
  induction s1 as [|c s1 IH]; [done|].
  change (String c s1 +:+ s2) with (String c (s1 +:+ s2)).
  destruct (decide (c = LF)) as [->|Hc].
  - rewrite split_cons_lf, IH.
    destruct (complete_pending_unique (String LF s1)
                ("" :: complete s1) (pending s1)) as [-> ->]; [|done].
    by rewrite split_cons_lf, (split_complete_pending s1) at 1.
  - rewrite split_cons_other, IH by done.
    destruct (complete s1) as [|l ls] eqn:Hcomplete.
    + destruct (complete_pending_unique (String c s1)
                  [] (String c (pending s1))) as [-> ->].
      { rewrite split_cons_other, (split_complete_pending s1), Hcomplete
          by done. done. }
      cbn [app].
      change (String c (pending s1) +:+ s2)
        with (String c (pending s1 +:+ s2)).
      by rewrite (split_cons_other c (pending s1 +:+ s2)) by done.
    + destruct (complete_pending_unique (String c s1)
                  (String c l :: ls) (pending s1)) as [-> ->]; [|done].
      rewrite split_cons_other, (split_complete_pending s1), Hcomplete
        by done. done.
Qed.

Lemma complete_app (s1 s2 : string) :
  complete (s1 +:+ s2) = complete s1 ++ complete (pending s1 +:+ s2).
Proof.
  apply (complete_pending_unique _ _ (pending (pending s1 +:+ s2))).
  rewrite split_app, (split_complete_pending (pending s1 +:+ s2)).
  by rewrite app_assoc.
Qed.

Lemma pending_app (s1 s2 : string) :
  pending (s1 +:+ s2) = pending (pending s1 +:+ s2).
Proof.
  apply (complete_pending_unique _
           (complete s1 ++ complete (pending s1 +:+ s2))).
  rewrite split_app, (split_complete_pending (pending s1 +:+ s2)).
  by rewrite app_assoc.
Qed.

(** One chunk: the complete lines of buffer and chunk are emitted with
    their line feed, the pending piece is the new buffer. *)
Lemma readline_react_next (e bufferedString : string) :
  readline_react (OnNext e) bufferedString
  = (OnNext <$> (terminated <$> complete (bufferedString +:+ e)),
     pending (bufferedString +:+ e)).
Proof. unfold readline_react, complete, pending. by rewrite <- list_fmap_compose. Qed.

Lemma split_lf_free (s : string) : lf_free s = true → split LF s = [s].
Proof.
  induction s as [|c s IH]; [done|]. cbn.
  case_decide; [done|]. intros Hs. by rewrite IH.
Qed.

Lemma split_pieces_lf_free (s : string) :
  Forall (λ piece, lf_free piece = true) (split LF s).
Proof.
  induction s as [|c s IH]; [by repeat constructor|]. cbn.
  case_decide as Hc; [by constructor|].
  pose proof (split_nonempty LF s) as Hne.
  destruct (split LF s) as [|piece pieces]; [done|].
  inversion IH; subst. constructor; [|done].
  cbn. by rewrite decide_False.
Qed.

Lemma pending_lf_free (s : string) : lf_free (pending s) = true.
Proof.
  pose proof (split_pieces_lf_free s) as H.
  rewrite split_complete_pending in H.
  apply Forall_app in H as [_ H]. by inversion H.
Qed.

Lemma split_line (line rest : string) :
  lf_free line = true →
  split LF (line +:+ String LF rest) = line :: split LF rest.
Proof.
  induction line as [|c line IH]; intros Hline.
  - apply split_cons_lf.
  - cbn in Hline. case_decide as Hc; [done|].
    change (String c line +:+ String LF rest)
      with (String c (line +:+ String LF rest)).
    by rewrite split_cons_other, IH by done.
Qed.

Lemma join_cons (s : string) (ss : list string) :
  join (s :: ss) = s +:+ join ss.
Proof. done. Qed.

Lemma terminated_app (line rest : string) :
  terminated line +:+ rest = line +:+ String LF rest.
Proof. unfold terminated. by rewrite string_app_assoc. Qed.

Lemma split_lines (lines : list string) (fragment : string) :
  Forall (λ line, lf_free line = true) lines →
  lf_free fragment = true →
  split LF (join (terminated <$> lines) +:+ fragment) = lines ++ [fragment].
Proof.
  intros Hlines Hfragment.
  induction Hlines as [|line lines Hline _ IH].
  - by apply split_lf_free.
  - rewrite fmap_cons, join_cons, string_app_assoc, terminated_app.
    by rewrite split_line, IH.
Qed.

(** Any chunking: what is emitted depends on the concatenation only. *)
Lemma link_readline_chunks (chunks : list string) (bufferedString : string) :
  lf_free bufferedString = true →
  (link readline_react ((OnNext <$> chunks) ++ [OnCompleted]) bufferedString).1
  = (OnNext <$> (terminated <$> complete (bufferedString +:+ join chunks)))
    ++ [OnNext (pending (bufferedString +:+ join chunks)); OnCompleted].
Proof.
  revert bufferedString.
  induction chunks as [|chunk chunks IH]; intros bufferedString Hfree.
  - cbn. rewrite string_app_nil_r.
    destruct (complete_pending_unique bufferedString [] bufferedString)
      as [-> ->]; [by apply split_lf_free|done].
  - cbn [fmap list_fmap app link terminal join foldr].
    rewrite readline_react_next.
    specialize (IH (pending (bufferedString +:+ chunk))
                  (pending_lf_free _)).
    destruct (link readline_react _ (pending (bufferedString +:+ chunk)))
      as [out' s''].
    cbn [fst] in *. rewrite IH.
    rewrite <- string_app_assoc.
    rewrite (complete_app (bufferedString +:+ chunk)).
    rewrite (pending_app (bufferedString +:+ chunk)).
    by rewrite !fmap_app, <- app_assoc.
Qed.

(** On strings: what is emitted for chunks appended as the given
    strings. *)
Lemma readline_string_lines (lines chunks : list string) (fragment : string) :
  Forall (λ line, lf_free line = true) lines →
  lf_free fragment = true →
  join chunks = join (terminated <$> lines) +:+ fragment →
  readline ((OnNext <$> chunks) ++ [OnCompleted])
  = (OnNext <$> (terminated <$> lines)) ++ [OnNext fragment; OnCompleted].
Proof.
  intros Hlines Hfragment Hchunks. unfold readline.
  rewrite link_readline_chunks by done.
  change ("" +:+ join chunks) with (join chunks). rewrite Hchunks.
  destruct (complete_pending_unique
              (join (terminated <$> lines) +:+ fragment) lines fragment)
    as [-> ->]; [by apply split_lines|done].
Qed.

(** Buffers reach the buffer as their string forms. *)
Lemma readline_buffers_nexts (Buffer_toString : list Byte.byte → string)
    (chunks : list (list Byte.byte)) (tail : list (notif (list Byte.byte))) :
  readline_buffers Buffer_toString ((OnNext <$> chunks) ++ tail)
  = readline ((OnNext <$> (Buffer_toString <$> chunks))
              ++ (appended Buffer_toString <$> tail)).
Proof.
  unfold readline_buffers. rewrite fmap_app. f_equal. f_equal.
  induction chunks as [|chunk chunks IH]; [done|].
  rewrite !fmap_cons, IH. done.
Qed.

(** C5, as amended: for N lines, each terminated by a line feed and
    followed by a last fragment without line feed, [readline] fed chunks
    whose string forms, each Buffer decoded on its own, concatenate to
    that text emits the N lines, each with its terminator, then the
    fragment, then completes.  When the text ends with the last line's
    line feed the fragment is empty: the N lines are followed by one more
    element, the empty string.  The chunks are taken by what they decode
    to: a chunking of the bytes of the text that cuts a character of
    several bytes does not decode to the text, and is not covered. *)
Theorem readline_lines (Buffer_toString : list Byte.byte → string)
    (lines : list string) (chunks : list (list Byte.byte))
    (fragment : string) :
  Forall (λ line, lf_free line = true) lines →
  lf_free fragment = true →
  join (Buffer_toString <$> chunks) = join (terminated <$> lines) +:+ fragment →
  readline_buffers Buffer_toString ((OnNext <$> chunks) ++ [OnCompleted])
  = (OnNext <$> (terminated <$> lines)) ++ [OnNext fragment; OnCompleted].
Proof.
  intros Hlines Hfragment Hchunks.
  rewrite readline_buffers_nexts. by apply readline_string_lines.
Qed.

Lemma readline_lines_witness :
  readline_buffers string_of_list_byte
    ((OnNext <$> [list_byte_of_string "ab";
                  list_byte_of_string ("c" +:+ String LF "d" +:+ String LF "e");
                  list_byte_of_string "f"])
     ++ [OnCompleted])
  = (OnNext <$> (terminated <$> ["abc"; "d"])) ++ [OnNext "ef"; OnCompleted].
Proof.
  apply (readline_lines string_of_list_byte ["abc"; "d"]
           [list_byte_of_string "ab";
            list_byte_of_string ("c" +:+ String LF "d" +:+ String LF "e");
            list_byte_of_string "f"] "ef").
  - repeat constructor.
  - reflexivity.
  - reflexivity.
Defined.

(** C5, as stated, fails: one line "a" with its line feed, fed as one
    chunk, gives two elements, the line and the empty string. *)
Lemma readline_extra_element :
  ¬ ∀ lines chunks : list string,
      Forall (λ line, lf_free line = true) lines →
      join chunks = join (terminated <$> lines) →
      readline ((OnNext <$> chunks) ++ [OnCompleted])
      = (OnNext <$> (terminated <$> lines)) ++ [OnCompleted].
Proof.
  intros H.
  specialize (H ["a"] ["a" +:+ String LF ""]).
  discriminate H; [by repeat constructor|reflexivity].
Qed.

(** ** splitMerge *)

Section TableFacts.
Context {V : Type}.
Implicit Types (t : list (string * V)) (k key : string) (v : V).

Lemma table_get_set_eq t key v : table_get key (table_set key v t) = Some v.
Proof.
  induction t as [|[k v'] t IH]; cbn.
  - by rewrite decide_True.
  - destruct (decide (k = key)) as [->|Hne]; cbn.
    + by rewrite decide_True.
    + by rewrite decide_False.
Qed.

Lemma table_get_set_ne t key k v :
  k ≠ key → table_get k (table_set key v t) = table_get k t.
Proof.
  intros Hne. induction t as [|[k' v'] t IH]; cbn.
  - by rewrite decide_False.
  - destruct (decide (k' = key)) as [->|Hne']; cbn.
    + by rewrite !decide_False.
    + by rewrite IH.
Qed.

Lemma table_get_delete_eq t key : table_get key (table_delete key t) = None.
Proof.
  induction t as [|[k v] t IH]; cbn; [done|].
  destruct (decide (k = key)) as [->|Hne]; cbn; [done|].
  by rewrite decide_False.
Qed.

Lemma table_get_delete_ne t key k :
  k ≠ key → table_get k (table_delete key t) = table_get k t.
Proof.
  intros Hne. induction t as [|[k' v] t IH]; cbn; [done|].
  destruct (decide (k' = key)) as [->|Hne']; cbn.
  - by rewrite decide_False.
  - by rewrite IH.
Qed.

Lemma table_get_delete_Some t key k v :
  table_get k (table_delete key t) = Some v → table_get k t = Some v.
Proof.
  destruct (decide (k = key)) as [->|Hne].
  - by rewrite table_get_delete_eq.
  - by rewrite table_get_delete_ne.
Qed.
Lemma table_get_None_own t key : table_get key t = None ↔ key ∉ t.*1.
Proof.
  induction t as [|[k v] t IH]; cbn.
  - split; [intros _; apply not_elem_of_nil|done].
  - rewrite not_elem_of_cons. destruct (decide (k = key)) as [->|Hne].
    + split; [done|]. by intros [? _].
    + rewrite IH. split; [by split|]. by intros [_ ?].
Qed.

Lemma table_own_set_new t key v :
  table_get key t = None → (table_set key v t).*1 = t.*1 ++ [key].
Proof.
  induction t as [|[k v'] t IH]; cbn; [done|].
  destruct (decide (k = key)) as [->|Hne]; [done|].
  intros Hget. cbn. by rewrite IH.
Qed.

Lemma table_own_set_old t key v :
  is_Some (table_get key t) → (table_set key v t).*1 = t.*1.
Proof.
  induction t as [|[k v'] t IH]; cbn.
  - by intros [? ?].
  - destruct (decide (k = key)) as [->|Hne]; [done|].
    intros Hget. cbn. by rewrite IH.
Qed.

Lemma table_own_delete t key :
  (table_delete key t).*1 = filter (λ k, k ≠ key) t.*1.
Proof.
  induction t as [|[k v] t IH]; [done|]. cbn [table_delete].
  rewrite fmap_cons, filter_cons. cbn [fst].
  destruct (decide (k = key)) as [->|Hne].
  - by rewrite decide_False by (by intros ?).
  - rewrite decide_True by done. rewrite fmap_cons. cbn [fst]. by rewrite IH.
Qed.

Lemma table_delete_absent t key : key ∉ t.*1 → table_delete key t = t.
Proof.
  induction t as [|[k v] t IH]; [done|]. cbn.
  rewrite not_elem_of_cons. intros [Hne Hnotin].
  rewrite decide_False by done. by rewrite IH.
Qed.

(** [Object.keys] lists every own property once. *)
Lemma index_keys_names (keys : list string) :
  (index_keys keys).*2 = filter (λ key, ¬ array_index key = None) keys.
Proof.
  unfold index_keys. induction keys as [|key keys IH]; [done|].
  rewrite filter_cons. cbn [omap list_omap].
  destruct (array_index key) as [i|]; cbn [fmap option_fmap option_map].
  - rewrite decide_True by done. rewrite fmap_cons. cbn [snd]. by rewrite IH.
  - rewrite decide_False by (by intros ?). done.
Qed.

Lemma Object_keys_order_Permutation (keys : list string) :
  Object_keys_order keys ≡ₚ keys.
Proof.
  unfold Object_keys_order.
  rewrite (merge_sort_Permutation index_le (index_keys keys)).
  rewrite index_keys_names, Permutation_app_comm.
  apply filter_app_complement.
Qed.

(** Names that are not array indices are listed in the order the
    properties were added. *)
Lemma Object_keys_order_names (keys : list string) :
  Forall (λ key, array_index key = None) keys →
  Object_keys_order keys = keys.
Proof.
  intros Hnames. unfold Object_keys_order.
  assert (index_keys keys = []) as ->.
  { unfold index_keys. induction Hnames as [|key keys Hkey _ IH]; [done|].
    cbn. by rewrite Hkey. }
  cbn. induction Hnames as [|key keys Hkey _ IH]; [done|].
  rewrite filter_cons, decide_True by done. by rewrite IH.
Qed.

(** Array indices are the canonical numerals below 2^32 - 1; they come
    first, in numeric order. *)
Lemma array_index_instances :
  array_index "0" = Some 0%N ∧ array_index "10" = Some 10%N
  ∧ array_index "4294967294" = Some 4294967294%N
  ∧ array_index "4294967295" = None ∧ array_index "01" = None
  ∧ array_index "-1" = None ∧ array_index "1.5" = None
  ∧ array_index "" = None ∧ array_index "b" = None.
Proof. repeat split; by vm_compute. Qed.

Lemma Object_keys_order_instance :
  Object_keys_order ["b"; "10"; "a"; "9"; "01"] = ["9"; "10"; "b"; "a"; "01"].
Proof. by vm_compute. Qed.

Lemma table_keys_Permutation t : table_keys t ≡ₚ t.*1.
Proof. apply Object_keys_order_Permutation. Qed.

Lemma table_keys_length t : length (table_keys t) = length t.
Proof. by rewrite table_keys_Permutation, length_fmap. Qed.

Lemma table_get_None_keys t key :
  table_get key t = None ↔ key ∉ table_keys t.
Proof. by rewrite table_keys_Permutation, table_get_None_own. Qed.

Lemma table_get_Some_own t key :
  key ∈ t.*1 → is_Some (table_get key t).
Proof.
  intros Hin. destruct (table_get key t) eqn:Hget; [done|].
  by apply table_get_None_own in Hget.
Qed.
End TableFacts.

Section SplitMergeFacts.
Context {E O : Type}.
Implicit Types (m : merger E O) (key k : string) (ns : list (notif O)).



Lemma flow_onCompleted_flows key m :
  flows (flow_onCompleted key m) = table_delete key (flows m).
Proof. unfold flow_onCompleted. by case_decide. Qed.

Lemma flow_onCompleted_calls key m :
  calls (flow_onCompleted key m) = calls m.
Proof. unfold flow_onCompleted. by case_decide. Qed.

Lemma flow_onCompleted_output key m :
  output (flow_onCompleted key m)
  = output m
    ++ (if decide (table_delete key (flows m) = []) then [OnCompleted]
        else []).
Proof.
  unfold flow_onCompleted. cbn [flows]. rewrite table_keys_length.
  destruct (table_delete key (flows m)) as [|kv t]; cbn; [done|].
  by rewrite app_nil_r.
Qed.


Lemma deliver_calls key ns m : calls (deliver key ns m).2 = calls m.
Proof.
  revert m. induction ns as [|[e|err|] ns IH]; intros m; cbn; try done.
  - by rewrite IH.
  - apply flow_onCompleted_calls.
Qed.



Lemma flow_push_calls key (e : E) m : calls (flow_push key e m) = calls m.
Proof.
  unfold flow_push. destruct (table_get key (flows m)) as [f|]; [|done].
  destruct (isStopped f || negb (subscribed f)); [done|].
  pose proof (deliver_calls key
                (at_next (handler_output f) (pushed f) e) m) as Hd.
  destruct (deliver key _ m) as [live m']. cbn in Hd.
  unfold store_flow. by destruct (table_get key (flows m')).
Qed.



Variable selector : E → string.
Variable handlers : handlers_arg E O.

(** The three cases of [flows[key]] in [onNext]. *)
Lemma splitMerge_onNext_own (e : E) m (f : flow E O) :
  table_get (selector e) (flows m) = Some f →
  splitMerge_onNext selector handlers e m
  = (flow_push (selector e) e m, None).
Proof. intros Hget. unfold splitMerge_onNext. by rewrite Hget. Qed.

Lemma splitMerge_onNext_inherited (e : E) m :
  table_get (selector e) (flows m) = None →
  selector e ∈ Object_prototype →
  splitMerge_onNext selector handlers e m = (m, Some TypeError).
Proof.
  intros Hget Hin. unfold splitMerge_onNext, property_of.
  by rewrite Hget, decide_True.
Qed.

Lemma splitMerge_onNext_new (e : E) m :
  table_get (selector e) (flows m) = None →
  selector e ∉ Object_prototype →
  splitMerge_onNext selector handlers e m
  = let key := selector e in
    let m := {| flows := flows m; calls := calls m ++ [key];
                output := output m |} in
    match normalize handlers key with
    | Throw x => (m, Some x)
    | Ret h =>
        let '(live, m) := deliver key (at_subscribe h) m in
        let m :=
          with_flow key
            {| pushed := []; handler_output := h; subscribed := live;
               isStopped := false |} m in
        (flow_push key e m, None)
    end.
Proof.
  intros Hget Hnotin. unfold splitMerge_onNext, property_of.
  by rewrite Hget, decide_False.
Qed.

(** One notification, by the state it meets. *)
Lemma splitMerge_call_live m (n : notif E) :
  detached m = false →
  splitMerge_call selector handlers (m, Live) n
  = match n with
    | OnNext e =>
        (((splitMerge_onNext selector handlers e m).1, Live),
         (splitMerge_onNext selector handlers e m).2)
    | OnError err => ((splitMerge_onError err m, Stopped), None)
    | OnCompleted => ((splitMerge_onCompleted m, Stopped), None)
    end.
Proof.
  intros Hattached. unfold splitMerge_call. rewrite Hattached.
  destruct n as [e|err|]; [|done..].
  by destruct (splitMerge_onNext selector handlers e m).
Qed.

Lemma splitMerge_step_live m (n : notif E) :
  detached m = false →
  splitMerge_step selector handlers (m, Live) n
  = match n with
    | OnNext e => ((splitMerge_onNext selector handlers e m).1, Live)
    | OnError err => (splitMerge_onError err m, Stopped)
    | OnCompleted => (splitMerge_onCompleted m, Stopped)
    end.
Proof.
  intros Hattached. unfold splitMerge_step.
  rewrite splitMerge_call_live by done. by destruct n.
Qed.

Lemma splitMerge_step_detached m (n : notif E) :
  detached m = true →
  splitMerge_step selector handlers (m, Live) n = (m, Live).
Proof.
  intros Hdetached. unfold splitMerge_step, splitMerge_call.
  by rewrite Hdetached.
Qed.

Lemma splitMerge_stopped m (input : list (notif E)) :
  foldl (splitMerge_step selector handlers) (m, Stopped) input = (m, Stopped).
Proof. induction input as [|n input IH]; [done|]. cbn. apply IH. Qed.

Lemma thrown_from_app (s : merger E O * upstream) (input1 input2 : list (notif E)) :
  thrown_from selector handlers s (input1 ++ input2)
  = thrown_from selector handlers s input1
    ++ thrown_from selector handlers
         (foldl (splitMerge_step selector handlers) s input1) input2.
Proof.
  revert s. induction input1 as [|n input1 IH]; intros s; [done|].
  cbn [app thrown_from foldl]. unfold splitMerge_step at 2.
  destruct (splitMerge_call selector handlers s n) as [s' thrown].
  cbn [fst]. by rewrite IH, app_assoc.
Qed.





(** *** Handlers that complete with their flow *)

Lemma deliver_no_completion key ns m :
  OnCompleted ∉ ns →
  flows (deliver key ns m).2 = flows m
  ∧ (OnCompleted ∉ output m → OnCompleted ∉ output (deliver key ns m).2).
Proof.
  revert m. induction ns as [|[e|err|] ns IH]; intros m Hns; cbn.
  - done.
  - apply not_elem_of_cons in Hns as [_ Hns].
    destruct (IH (flow_onNext e m) Hns) as [Hflows Hout].
    split; [done|]. intros Hm. apply Hout. cbn.
    rewrite elem_of_app, list_elem_of_singleton. by intros [?|?].
  - split; [done|]. intros Hm.
    rewrite elem_of_app, list_elem_of_singleton. by intros [?|?].
  - exfalso. apply Hns, list_elem_of_here.
Qed.

Lemma store_flow_own key (f : flow E O) m :
  (flows (store_flow key f m)).*1 = (flows m).*1.
Proof.
  unfold store_flow. destruct (table_get key (flows m)) eqn:Hget; [|done].
  cbn. apply table_own_set_old. by rewrite Hget.
Qed.

Lemma store_flow_patient key (f : flow E O) m :
  completes_with_flow (handler_output f) →
  flows_patient m → flows_patient (store_flow key f m).
Proof.
  intros Hf Hm. unfold store_flow.
  destruct (table_get key (flows m)); [|done].
  intros k f' Hk. cbn in Hk. destruct (decide (k = key)) as [->|Hne].
  - rewrite table_get_set_eq in Hk. by injection Hk as <-.
  - rewrite table_get_set_ne in Hk by done. by eapply Hm.
Qed.

Lemma flow_push_patient key (e : E) m :
  flows_patient m →
  flows_patient (flow_push key e m)
  ∧ (flows (flow_push key e m)).*1 = (flows m).*1
  ∧ (OnCompleted ∉ output m → OnCompleted ∉ output (flow_push key e m)).
Proof.
  intros Hm. unfold flow_push.
  destruct (table_get key (flows m)) as [f|] eqn:Hget; [|done].
  destruct (isStopped f || negb (subscribed f)); [done|].
  destruct (Hm key f Hget) as [_ Hnext].
  destruct (deliver_no_completion key
              (at_next (handler_output f) (pushed f) e) m (Hnext _ _))
    as [Hflows Hout].
  destruct (deliver key _ m) as [live m']. cbn [snd] in *.
  assert (flows_patient m') as Hm'.
  { intros k f' Hk. rewrite Hflows in Hk. by eapply Hm. }
  split; [by apply store_flow_patient; [eapply (Hm key f)|]|].
  split; [by rewrite store_flow_own, Hflows|].
  intros H. unfold store_flow.
  destruct (table_get key (flows m')); cbn; by apply Hout.
Qed.

Lemma flow_complete_calls key m : calls (flow_complete key m) = calls m.
Proof.
  unfold flow_complete. destruct (table_get key (flows m)) as [f|]; [|done].
  destruct (isStopped f); [done|]. destruct (negb (subscribed f)); [done|].
  pose proof (deliver_calls key
                (at_completed (handler_output f) (pushed f)) m) as Hd.
  destruct (deliver key _ m) as [live m']. cbn in Hd.
  unfold store_flow. by destruct (table_get key (flows m')).
Qed.

Lemma splitMerge_onCompleted_calls m :
  calls (splitMerge_onCompleted m) = calls m.
Proof.
  unfold splitMerge_onCompleted. case_decide as Hkeys; [done|]. clear Hkeys.
  generalize (table_keys (flows m)). intros keys. revert m.
  induction keys as [|key keys IH]; intros m; cbn; [done|].
  by rewrite IH, flow_complete_calls.
Qed.

Lemma splitMerge_onNext_unfinished (e : E) m :
  patient handlers →
  flows_patient m → OnCompleted ∉ output m →
  flows_patient (splitMerge_onNext selector handlers e m).1
  ∧ (OnCompleted ∉ output (splitMerge_onNext selector handlers e m).1)
  ∧ (flows (splitMerge_onNext selector handlers e m).1).*1
    = (flows m).*1
      ++ (if decide (is_Some (table_get (selector e) (flows m))
                     ∨ selector e ∈ Object_prototype) then []
          else match normalize handlers (selector e) with
               | Ret _ => [selector e]
               | Throw _ => []
               end)
  ∧ calls (splitMerge_onNext selector handlers e m).1
    = calls m
      ++ (if decide (is_Some (table_get (selector e) (flows m))
                     ∨ selector e ∈ Object_prototype) then []
          else [selector e]).
Proof.
  intros Hpatient Hflows Hout.
  destruct (table_get (selector e) (flows m)) as [f|] eqn:Hget.
  - rewrite (splitMerge_onNext_own _ _ _ Hget). cbn [fst].
    rewrite !decide_True by (left; by eexists). rewrite !app_nil_r.
    destruct (flow_push_patient (selector e) e m Hflows)
      as (Hflows' & Hkeys' & Hout').
    rewrite flow_push_calls. auto.
  - destruct (decide (selector e ∈ Object_prototype)) as [Hin|Hnotin].
    { rewrite splitMerge_onNext_inherited by done. cbn [fst].
      rewrite !decide_True by by right. rewrite !app_nil_r. auto. }
    rewrite !decide_False by (intros [[? ?]|?]; done).
    rewrite splitMerge_onNext_new by done. cbn zeta.
    destruct (normalize handlers (selector e)) as [h|x] eqn:Hh.
    2:{ cbn [fst flows calls output]. by rewrite app_nil_r. }
    destruct (Hpatient _ _ Hh) as [Hsub Hnext].
    set (m0 := {| flows := flows m; calls := calls m ++ [selector e];
                  output := output m |}).
    destruct (deliver_no_completion (selector e) (at_subscribe h) m0 Hsub)
      as [Hflows0 Hout0].
    pose proof (deliver_calls (selector e) (at_subscribe h) m0) as Hcalls0.
    destruct (deliver (selector e) (at_subscribe h) m0) as [live m1].
    cbn [fst snd] in *.
    set (f := {| pushed := []; handler_output := h; subscribed := live;
                 isStopped := false |}).
    assert (flows_patient (with_flow (selector e) f m1)) as Hpat.
    { intros k f' Hk. cbn in Hk.
      destruct (decide (k = selector e)) as [->|Hne].
      - rewrite table_get_set_eq in Hk. by injection Hk as <-.
      - rewrite table_get_set_ne, Hflows0 in Hk by done. by eapply Hflows. }
    destruct (flow_push_patient (selector e) e _ Hpat)
      as (Hflows' & Hkeys' & Hout').
    split; [done|]. split; [by apply Hout', Hout0|].
    rewrite flow_push_calls, Hkeys'. cbn [with_flow flows calls].
    split; [|done].
    rewrite table_own_set_new, Hflows0; [done|by rewrite Hflows0].
Qed.

Lemma splitMerge_step_unfinished (s : merger E O * upstream) (n : notif E) :
  patient handlers →
  unfinished s → unfinished (splitMerge_step selector handlers s n).
Proof.
  intros Hpatient Hlive.
  destruct s as [m [|]]; cbn [fst snd] in *; [|done].
  destruct (Hlive eq_refl) as (Hflows & Hout). clear Hlive.
  destruct (detached m) eqn:Hdetached.
  { by rewrite splitMerge_step_detached. }
  rewrite splitMerge_step_live by done.
  destruct n as [e|err|]; [|done..].
  destruct (splitMerge_onNext_unfinished e m Hpatient Hflows Hout)
    as (? & ? & _).
  by intros _.
Qed.

Lemma splitMerge_unfinished (input : list (notif E)) :
  patient handlers → unfinished (splitMerge selector handlers input).
Proof.
  intros Hpatient. unfold splitMerge.
  induction input as [|n input IH] using rev_ind.
  - intros _. cbn. split; [by intros k f ?|apply not_elem_of_nil].
  - rewrite foldl_app. cbn [foldl]. by apply splitMerge_step_unfinished.
Qed.

Lemma splitMerge_step_orderly (s : merger E O * upstream) (n : notif E) :
  patient handlers →
  (∀ e, n = OnNext e → ∃ h, normalize handlers (selector e) = Ret h) →
  unfinished s → orderly s →
  orderly (splitMerge_step selector handlers s n).
Proof.
  intros Hpatient Hreturns Hlive [Hnodup Hkeys].
  destruct s as [m [|]]; cbn [fst snd] in *; [|done].
  destruct (Hlive eq_refl) as (Hflows & Hout). clear Hlive.
  specialize (Hkeys eq_refl).
  destruct (detached m) eqn:Hdetached.
  { rewrite splitMerge_step_detached by done. by split. }
  rewrite splitMerge_step_live by done.
  destruct n as [e|err|].
  - destruct (splitMerge_onNext_unfinished e m Hpatient Hflows Hout)
      as (_ & _ & Hkeys' & Hcalls').
    destruct (Hreturns e eq_refl) as [h Hh]. rewrite Hh in Hkeys'.
    split; cbn [fst snd]; [|intros _; by rewrite Hkeys', Hcalls', Hkeys].
    rewrite Hcalls'. case_decide as Hold; [by rewrite app_nil_r|].
    apply NoDup_app. split; [done|]. split; [|apply NoDup_singleton].
    intros k Hk ->%list_elem_of_singleton. apply Hold. left.
    apply table_get_Some_own. by rewrite Hkeys.
  - done.
  - split; cbn [fst snd]; [by rewrite splitMerge_onCompleted_calls|done].
Qed.

(** X16: with handlers whose observables do not complete before their
    flow does, the merged output completes only after the upstream has;
    and when moreover every call of the handlers returns, the handler is
    called once per key at most. *)
Lemma splitMerge_patient (input : list (notif E)) :
  patient handlers →
  (returning selector handlers input →
   NoDup (calls (splitMerge selector handlers input).1))
  ∧ (OnCompleted ∈ output (splitMerge selector handlers input).1 →
     OnCompleted ∈ input).
Proof.
  intros Hpatient. split.
  - intros Hreturning.
    assert (orderly (splitMerge selector handlers input)) as [H _]; [|done].
    induction input as [|n input IH] using rev_ind.
    + split; [apply NoDup_nil_2|done].
    + pose proof (splitMerge_unfinished input Hpatient) as Hlive.
      unfold splitMerge in *. rewrite foldl_app. cbn [foldl].
      apply splitMerge_step_orderly; [done| |done|].
      * intros e ->. apply Hreturning.
        rewrite elem_of_app, list_elem_of_singleton. by right.
      * apply IH. intros e He. apply Hreturning. rewrite elem_of_app. by left.
  - induction input as [|n input IH] using rev_ind.
    { by intros ?%elem_of_nil. }
    pose proof (splitMerge_unfinished input Hpatient) as Hlive.
    pose proof (splitMerge_unfinished (input ++ [n]) Hpatient) as Hlive'.
    unfold splitMerge in *. rewrite foldl_app in *. cbn [foldl] in *.
    intros Hin. rewrite elem_of_app, list_elem_of_singleton.
    destruct n as [e|err|]; [| |by right]; left; apply IH.
    + destruct (foldl _ _ input) as [m [|]]; cbn [fst snd] in *; [|done].
      destruct (detached m) eqn:Hdetached.
      * by rewrite splitMerge_step_detached in Hin by done.
      * rewrite splitMerge_step_live in Hin, Hlive' by done.
        cbn [fst snd] in *. by destruct (Hlive' eq_refl) as [_ ?].
    + destruct (foldl _ _ input) as [m [|]]; cbn [fst snd] in *; [|done].
      destruct (detached m) eqn:Hdetached.
      * by rewrite splitMerge_step_detached in Hin by done.
      * rewrite splitMerge_step_live in Hin by done.
        cbn in Hin. apply elem_of_app in Hin as [?|Hin]; [done|].
        by apply list_elem_of_singleton in Hin.
Qed.
End SplitMergeFacts.

(** The scenario of the specification: keys A, A, B, A with identity
    handlers.  The handler is called for A and for B, the four events come
    out in order, and the output completes on the upstream's completion,
    when both flows' handler outputs have completed; what the upstream
    sends after its completion is not looked at. *)
Lemma splitMerge_identity_scenario :
  let r := splitMerge (λ e : string, e) (ByKeyFunction (λ _, Ret identity_handler))
             [OnNext "A"; OnNext "A"; OnNext "B"; OnNext "A"] in
  let r' := splitMerge (λ e : string, e)
              (ByKeyFunction (λ _, Ret identity_handler))
              [OnNext "A"; OnNext "A"; OnNext "B"; OnNext "A"; OnCompleted;
               OnNext "C"] in
  calls r.1 = ["A"; "B"]
  ∧ output r.1 = [OnNext "A"; OnNext "A"; OnNext "B"; OnNext "A"]
  ∧ table_keys (flows r.1) = ["A"; "B"]
  ∧ calls r'.1 = ["A"; "B"]
  ∧ output r'.1
    = [OnNext "A"; OnNext "A"; OnNext "B"; OnNext "A"; OnCompleted]
  ∧ flows r'.1 = [] ∧ r'.2 = Stopped.
Proof. cbn zeta. repeat split; vm_compute; reflexivity. Qed.

(** C1, as amended: when the observable of a key's handler completes
    (after any values), the key's entry is removed from the flow table and
    the merged output is completed exactly when this removal leaves the
    table empty; whether the upstream has completed plays no part (the
    state holds no record of it).  So the merged output can complete while
    the upstream is live: with one event of key A and a handler that takes
    the first event of its flow it does. *)
Theorem handler_completion_completes_on_empty_table :
  (∀ (E O : Type) (key : string) (values : list O) (rest : list (notif O))
     (m : merger E O),
     let r := deliver key ((OnNext <$> values) ++ OnCompleted :: rest) m in
     r.1 = false
     ∧ flows r.2 = table_delete key (flows m)
     ∧ table_get key (flows r.2) = None
     ∧ calls r.2 = calls m
     ∧ output r.2
       = output m ++ (OnNext <$> values)
         ++ (if decide (table_delete key (flows m) = []) then [OnCompleted]
             else []))
  ∧ (let r := splitMerge (λ e : string, e) take1_for_A [OnNext "A"] in
     r.2 = Live ∧ output r.1 = [OnNext "A"; OnCompleted] ∧ flows r.1 = []).
Proof.
  split; [|by vm_compute].
  intros E O key values rest. cbn zeta.
  induction values as [|v values IH]; intros m.
  - cbn. rewrite flow_onCompleted_flows, flow_onCompleted_calls,
      flow_onCompleted_output, table_get_delete_eq. done.
  - cbn [fmap list_fmap app deliver].
    destruct (IH (flow_onNext v m)) as (H1 & H2 & H3 & H4 & H5).
    repeat split; try done.
    rewrite H5. cbn. by rewrite <- app_assoc.
Qed.

(** C1, as stated, fails: one event with key A and a handler that takes
    the first event of its flow; the merged output completes, and the
    upstream has not. *)
Lemma splitMerge_completes_while_upstream_live :
  ¬ ∀ (selector : string → string) (handlers : handlers_arg string string)
      (input : list (notif string)),
      OnCompleted ∈ delivered (output (splitMerge selector handlers input).1) →
      OnCompleted ∈ input.
Proof.
  intros H.
  specialize (H (λ e, e) take1_for_A [OnNext "A"]).
  assert (OnCompleted ∈ [OnNext "A"]) as Hin.
  { apply H. vm_compute. set_solver. }
  apply list_elem_of_singleton in Hin. discriminate Hin.
Qed.

(** C4 at the failing input: events with keys B, A, A, where the handler
    of A completes after the first event of its flow.  The entry of A is
    removed while B's flow keeps the table non-empty, and the third event
    calls the handler for key A a second time. *)
Theorem splitMerge_handler_called_twice :
  let r := splitMerge (λ e : string, e) take1_for_A
             [OnNext "B"; OnNext "A"; OnNext "A"] in
  calls r.1 = ["B"; "A"; "A"]
  ∧ output r.1 = [OnNext "B"; OnNext "A"; OnNext "A"]
  ∧ table_keys (flows r.1) = ["B"]
  ∧ r.2 = Live
  ∧ ¬ NoDup (calls r.1).
Proof.
  cbn zeta. repeat split; try (vm_compute; reflexivity).
  intros Hnodup.
  replace (calls _) with ["B"; "A"; "A"] in Hnodup by (vm_compute; reflexivity).
  apply NoDup_cons in Hnodup as [_ Hnodup].
  apply NoDup_cons in Hnodup as [Hnotin _]. set_solver.
Qed.




(** A key that names an inherited property: [onNext] throws a TypeError,
    no handler is called and no flow is made, whether or not the table of
    handlers has the key. *)
Lemma splitMerge_inherited_key :
  let handlers := ByKeyTable {["toString" := Ret identity_handler]} in
  splitMerge (λ e : string, e) handlers [OnNext "toString"]
  = (merger_init, Live)
  ∧ splitMerge_thrown (λ e : string, e) handlers [OnNext "toString"]
    = [TypeError].
Proof. split; by vm_compute. Qed.

(** A handler call that throws leaves no entry in the table: the next
    event of that key calls the handler again. *)
Lemma splitMerge_calls_again_after_throw :
  calls (splitMerge (λ e : string, e) only_A [OnNext "B"; OnNext "B"]).1
  = ["B"; "B"]
  ∧ splitMerge_thrown (λ e : string, e) only_A [OnNext "B"; OnNext "B"]
    = [JsError "Unknown key[B]."; JsError "Unknown key[B]."].
Proof. split; by vm_compute. Qed.

(** * Further properties *)

(** ** readline: framing, chunk boundaries, the error path *)

Lemma link_nexts {S A B : Type} (react : notif A → S → list (notif B) * S)
    (values : list A) (tail : list (notif A)) (s : S) :
  link react ((OnNext <$> values) ++ tail) s
  = ((link react (OnNext <$> values) s).1
       ++ (link react tail (link react (OnNext <$> values) s).2).1,
     (link react tail (link react (OnNext <$> values) s).2).2).
Proof.
  revert s. induction values as [|v values IH]; intros s.
  - cbn. by destruct (link react tail s).
  - rewrite fmap_cons. cbn [app link terminal].
    destruct (react (OnNext v) s) as [out s'].
    rewrite IH.
    destruct (link react (OnNext <$> values) s') as [out1 s1]. cbn [fst snd].
    destruct (link react tail s1) as [out2 s2]. cbn [fst snd].
    by rewrite app_assoc.
Qed.

Lemma link_readline_nexts (chunks : list string) (bufferedString : string) :
  lf_free bufferedString = true →
  link readline_react (OnNext <$> chunks) bufferedString
  = (OnNext <$> (terminated <$> complete (bufferedString +:+ join chunks)),
     pending (bufferedString +:+ join chunks)).
Proof.
  revert bufferedString.
  induction chunks as [|chunk chunks IH]; intros bufferedString Hfree.
  - cbn. rewrite string_app_nil_r.
    destruct (complete_pending_unique bufferedString [] bufferedString)
      as [-> ->]; [by apply split_lf_free|done].
  - rewrite fmap_cons, join_cons. cbn [link terminal].
    rewrite readline_react_next.
    rewrite (IH (pending (bufferedString +:+ chunk))) by apply pending_lf_free.
    rewrite <- string_app_assoc.
    rewrite (complete_app (bufferedString +:+ chunk)).
    rewrite (pending_app (bufferedString +:+ chunk)).
    by rewrite !fmap_app.
Qed.

Lemma complete_lf_free (s : string) :
  Forall (λ line, lf_free line = true) (complete s).
Proof.
  pose proof (split_pieces_lf_free s) as H.
  rewrite split_complete_pending in H. by apply Forall_app in H as [? _].
Qed.

(** The complete lines with their line feeds, followed by the pending
    piece, are the buffer itself. *)
Lemma rejoin_complete_pending (s : string) :
  join (terminated <$> complete s) +:+ pending s = s.
Proof.
  induction s as [|c s IH]; [done|].
  destruct (decide (c = LF)) as [->|Hc].
  - destruct (complete_pending_unique (String LF s)
                ("" :: complete s) (pending s)) as [-> ->].
    { by rewrite split_cons_lf, (split_complete_pending s) at 1. }
    rewrite fmap_cons, join_cons, string_app_assoc, terminated_app.
    change ("" +:+ String LF (join (terminated <$> complete s) +:+ pending s))
      with (String LF (join (terminated <$> complete s) +:+ pending s)).
    by rewrite IH.
  - destruct (complete s) as [|l ls] eqn:Hcomplete.
    + destruct (complete_pending_unique (String c s)
                  [] (String c (pending s))) as [-> ->].
      { rewrite split_cons_other, (split_complete_pending s), Hcomplete
          by done. done. }
      cbn in IH. cbn. change ("" +:+ pending s) with (pending s) in IH.
      change ("" +:+ String c (pending s)) with (String c (pending s)).
      by rewrite IH.
    + destruct (complete_pending_unique (String c s)
                  (String c l :: ls) (pending s)) as [-> ->].
      { rewrite split_cons_other, (split_complete_pending s), Hcomplete
          by done. done. }
      rewrite !fmap_cons, !join_cons, !string_app_assoc in *.
      rewrite !terminated_app in *.
      change (String c l +:+ String LF (join (terminated <$> ls) +:+ pending s))
        with (String c (l +:+ String LF (join (terminated <$> ls) +:+ pending s))).
      by rewrite IH.
Qed.

(** X1: whatever chunks [readline] is fed, on completion it has emitted
    a framing of the text that was appended to its buffer, which is the
    concatenation of the string forms of the chunks, each Buffer decoded
    on its own: lines without inner line feed, each with its line feed,
    then a last fragment without line feed, whose concatenation is that
    text. *)
Theorem readline_frames_input (Buffer_toString : list Byte.byte → string)
    (chunks : list (list Byte.byte)) :
  ∃ (lines : list string) (fragment : string),
    readline_buffers Buffer_toString ((OnNext <$> chunks) ++ [OnCompleted])
    = (OnNext <$> (terminated <$> lines)) ++ [OnNext fragment; OnCompleted]
    ∧ Forall (λ line, lf_free line = true) lines
    ∧ lf_free fragment = true
    ∧ join (terminated <$> lines) +:+ fragment
      = join (Buffer_toString <$> chunks).
Proof.
  exists (complete (join (Buffer_toString <$> chunks))),
         (pending (join (Buffer_toString <$> chunks))).
  split; [|split; [apply complete_lf_free|split;
    [apply pending_lf_free|apply rejoin_complete_pending]]].
  rewrite readline_buffers_nexts. unfold readline.
  by rewrite link_readline_chunks.
Qed.

(** X2: [readline] sees the chunks through their string forms only, and
    of these the concatenation only: two sequences of chunks whose string
    forms concatenate to the same text, followed by the same
    notifications, give the same output. *)
Theorem readline_chunking (Buffer_toString : list Byte.byte → string)
    (chunks1 chunks2 : list (list Byte.byte))
    (tail : list (notif (list Byte.byte))) :
  join (Buffer_toString <$> chunks1) = join (Buffer_toString <$> chunks2) →
  readline_buffers Buffer_toString ((OnNext <$> chunks1) ++ tail)
  = readline_buffers Buffer_toString ((OnNext <$> chunks2) ++ tail).
Proof.
  intros Hjoin. rewrite !readline_buffers_nexts. unfold readline.
  rewrite !link_nexts, !link_readline_nexts by done. cbn [fst snd].
  by rewrite Hjoin.
Qed.

Lemma readline_chunking_witness :
  readline_buffers string_of_list_byte
    ((OnNext <$> [list_byte_of_string ("a" +:+ String LF "b");
                  list_byte_of_string "c"]) ++ [OnCompleted])
  = readline_buffers string_of_list_byte
      ((OnNext <$> [list_byte_of_string "a";
                    list_byte_of_string (String LF "bc")]) ++ [OnCompleted]).
Proof.
  exact (readline_chunking string_of_list_byte
           [list_byte_of_string ("a" +:+ String LF "b");
            list_byte_of_string "c"]
           [list_byte_of_string "a"; list_byte_of_string (String LF "bc")]
           [OnCompleted] eq_refl).
Defined.

(** X3: on an upstream error [readline] forwards the error after the
    complete lines it has emitted; the pending fragment is never emitted,
    and nothing follows the error. *)
Theorem readline_error_drops_fragment (lines chunks : list string)
    (fragment : string) (err : exn) (rest : list (notif string)) :
  Forall (λ line, lf_free line = true) lines →
  lf_free fragment = true →
  join chunks = join (terminated <$> lines) +:+ fragment →
  readline ((OnNext <$> chunks) ++ OnError err :: rest)
  = (OnNext <$> (terminated <$> lines)) ++ [OnError err].
Proof.
  intros Hlines Hfragment Hchunks. unfold readline.
  rewrite link_nexts, link_readline_nexts by done. cbn [fst snd link terminal].
  cbn [readline_react fst].
  change ("" +:+ join chunks) with (join chunks). rewrite Hchunks.
  destruct (complete_pending_unique
              (join (terminated <$> lines) +:+ fragment) lines fragment)
    as [-> _]; [by apply split_lines|done].
Qed.

Lemma readline_error_drops_fragment_witness :
  readline
    ((OnNext <$> ["ab"; "c" +:+ String LF "de"])
     ++ OnError (JsError "EIO") :: [OnNext "f"; OnCompleted])
  = (OnNext <$> (terminated <$> ["abc"])) ++ [OnError (JsError "EIO")].
Proof.
  apply (readline_error_drops_fragment ["abc"]
           ["ab"; "c" +:+ String LF "de"] "de" (JsError "EIO")
           [OnNext "f"; OnCompleted]).
  - repeat constructor.
  - reflexivity.
  - reflexivity.
Defined.

(** ** The idifier: what an id depends on, what a call leaves alone *)

Lemma find_nullish_none (recipe : list string) (e : event) :
  Forall (λ f, nullish (get e f) = false) recipe →
  List.find (λ f, nullish (get e f)) recipe = None.
Proof.
  induction 1 as [|f recipe Hf _ IH]; [done|]. cbn. by rewrite Hf.
Qed.

Lemma idify_complete_event (sha1 encodeBuffer : string → string)
    (e : event) (type : string) (recipe : list string) :
  nullish (get e "id") = true →
  get e "type" = VStr type →
  registered_recipe type = Some recipe →
  Forall (λ f, nullish (get e f) = false) recipe →
  idify sha1 encodeBuffer e
  = Returned (<["id" := VStr (encodeBuffer (sha1 (recipe_content recipe e)))]> e).
Proof.
  intros Hid Htype Hrecipe Hfields.
  rewrite (idify_registered sha1 encodeBuffer e type recipe);
    [|done|by rewrite Htype|done].
  unfold idify_by_recipe. by rewrite find_nullish_none.
Qed.

(** X4: the id is a function of the concatenated string forms of the
    recipe's fields and of nothing else.  Two events of one registered type
    whose recipe fields concatenate to the same string get the same id,
    whatever their other fields, how the string splits into fields, or
    whether a field is a number or its numeral; and were the digest and the
    encoding injective, these would be the only events sharing an id. *)
Theorem idify_id_of_content (sha1 encodeBuffer : string → string)
    (e1 e2 : event) (type : string) (recipe : list string) :
  nullish (get e1 "id") = true →
  nullish (get e2 "id") = true →
  get e1 "type" = VStr type →
  get e2 "type" = VStr type →
  registered_recipe type = Some recipe →
  Forall (λ f, nullish (get e1 f) = false) recipe →
  Forall (λ f, nullish (get e2 f) = false) recipe →
  (recipe_content recipe e1 = recipe_content recipe e2 →
   ∃ id, idify sha1 encodeBuffer e1 = Returned (<["id" := VStr id]> e1)
         ∧ idify sha1 encodeBuffer e2 = Returned (<["id" := VStr id]> e2))
  ∧ (Inj (=) (=) sha1 → Inj (=) (=) encodeBuffer →
     ∀ id, idify sha1 encodeBuffer e1 = Returned (<["id" := VStr id]> e1) →
           idify sha1 encodeBuffer e2 = Returned (<["id" := VStr id]> e2) →
           recipe_content recipe e1 = recipe_content recipe e2).
Proof.
  intros Hid1 Hid2 Htype1 Htype2 Hrecipe Hfields1 Hfields2.
  rewrite (idify_complete_event _ _ e1 type recipe) by done.
  rewrite (idify_complete_event _ _ e2 type recipe) by done.
  split.
  - intros ->. by eexists.
  - intros Hsha1 Henc id H1 H2.
    assert (∀ (e : event) (a b : string),
              Returned (<["id" := VStr a]> e) = Returned (<["id" := VStr b]> e) →
              a = b) as Hinj.
    { intros e a b [= Heq].
      assert (<["id" := VStr a]> e !! "id" = <["id" := VStr b]> e !! "id")
        as Hlook by by rewrite Heq.
      rewrite !lookup_insert_eq in Hlook. by injection Hlook. }
    apply Hinj in H1, H2. apply Hsha1, Henc. by rewrite H1, H2.
Qed.

Lemma idify_id_of_content_witness :
  ∃ id, idify (λ s, s) (λ s, s) cbg_d1_at_100
        = Returned (<["id" := VStr id]> cbg_d1_at_100)
        ∧ idify (λ s, s) (λ s, s) cbg_d_at_1100
          = Returned (<["id" := VStr id]> cbg_d_at_1100).
Proof.
  apply (proj1 (idify_id_of_content (λ s, s) (λ s, s)
                  cbg_d1_at_100 cbg_d_at_1100 "cbg" ["type"; "deviceId"; "ts"]
                  eq_refl eq_refl eq_refl eq_refl eq_refl
                  ltac:(repeat constructor) ltac:(repeat constructor))).
  reflexivity.
Defined.



(** X6: an event without an id that has no type (the field is absent or
    null) is rejected as of unknown type, with that type and its
    timestamp; the missing-field error is not the one raised. *)
Theorem idify_without_type (sha1 encodeBuffer : string → string) (e : event) :
  nullish (get e "id") = true →
  nullish (get e "type") = true →
  idify sha1 encodeBuffer e
  = Threw (ISE "Unknown event type[%s] for idification. ts[%s]"
               [get e "type"; get e "ts"]) e.
Proof.
  intros Hid Htype.
  apply idify_unregistered; [done| |]; destruct (get e "type"); try done;
    cbn [js_String]; not_listed.
Qed.

Lemma idify_without_type_witness :
  idify (λ s, s) (λ s, s) {["ts" := VNum 100]}
  = Threw (ISE "Unknown event type[%s] for idification. ts[%s]"
               [VUndef; VNum 100]) {["ts" := VNum 100]}.
Proof.
  exact (idify_without_type (λ s, s) (λ s, s) {["ts" := VNum 100]}
           eq_refl eq_refl).
Defined.

(** X7: the event the joiner synthesizes for a stop signal can never be
    idified as it is: it has no id and no ts, so [idify] throws the
    missing-field error on it, for deviceId when the stop signal had none
    and for ts otherwise. *)
Theorem idify_temp_stop_fails (sha1 encodeBuffer : string → string)
    (e : event) (tempId : val) :
  get e "type" = VStr "basal" →
  idify sha1 encodeBuffer (temp_stop e tempId)
  = Threw (ISE "Unable to make id for event type[%s], no field[%s]"
               [VStr "basal";
                VStr (if nullish (get e "deviceId") then "deviceId"
                      else "ts")])
          (temp_stop e tempId).
Proof.
  intros Htype.
  assert (get (temp_stop e tempId) "type" = VStr "basal") as Hstop_type.
  { rewrite <- Htype. unfold get. by rewrite temp_stop_lookup. }
  assert (get (temp_stop e tempId) "deliveryType" = VStr "temp-stop")
    as Hstop_delivery by (unfold get; by rewrite temp_stop_lookup).
  assert (get (temp_stop e tempId) "deviceId" = get e "deviceId")
    as Hstop_device by (unfold get; by rewrite temp_stop_lookup).
  assert (get (temp_stop e tempId) "ts" = VUndef)
    as Hstop_ts by (unfold get; by rewrite temp_stop_lookup).
  assert (get (temp_stop e tempId) "id" = VUndef)
    as Hstop_id by (unfold get; by rewrite temp_stop_lookup).
  rewrite (idify_registered sha1 encodeBuffer (temp_stop e tempId) "basal"
             ["type"; "deliveryType"; "deviceId"; "ts"]);
    [|by rewrite Hstop_id|by rewrite Hstop_type|done].
  unfold idify_by_recipe. cbn [List.find].
  rewrite Hstop_type, Hstop_delivery, Hstop_device, Hstop_ts. cbn [nullish].
  by destruct (nullish (get e "deviceId")).
Qed.

Lemma idify_temp_stop_fails_witness :
  idify (λ s, s) (λ s, s) (temp_stop scenario_stop (VStr "t100"))
  = Threw (ISE "Unable to make id for event type[%s], no field[%s]"
               [VStr "basal"; VStr "ts"])
          (temp_stop scenario_stop (VStr "t100")).
Proof.
  exact (idify_temp_stop_fails (λ s, s) (λ s, s) scenario_stop (VStr "t100")
           eq_refl).
Defined.

(** ** The temp-basal joiner over sequences *)

Lemma tempBasalJoin_run_app (input1 input2 : list loc) (j : joiner) :
  tempBasalJoin_run (input1 ++ input2) j
  = ((tempBasalJoin_run input1 j).1
       ++ (tempBasalJoin_run input2 (tempBasalJoin_run input1 j).2).1,
     (tempBasalJoin_run input2 (tempBasalJoin_run input1 j).2).2).
Proof.
  revert j. induction input1 as [|l input1 IH]; intros j.
  - cbn. by destruct (tempBasalJoin_run input2 j).
  - cbn [app tempBasalJoin_run].
    destruct (tempBasalJoin l j) as [out j']. rewrite IH.
    destruct (tempBasalJoin_run input1 j') as [out1 j1]. cbn [fst snd].
    destruct (tempBasalJoin_run input2 j1) as [out2 j2]. cbn [fst snd].
    by rewrite app_assoc.
Qed.

(** The four cases of one step. *)
Lemma tempBasalJoin_other (l : loc) (j : joiner) :
  ¬ is_temp (deref (heap j) l) → tempBasalJoin l j = ([l], j).
Proof.
  intros Hother. unfold tempBasalJoin, keep, tempBasalJoin_fn.
  by rewrite decide_False.
Qed.

Lemma tempBasalJoin_start (l : loc) (j : joiner) :
  is_temp_start (deref (heap j) l) →
  tempBasalJoin l j = ([l], {| heap := heap j; currTemp := Some l |}).
Proof.
  intros [Htemp Hduration]. unfold tempBasalJoin, keep, tempBasalJoin_fn.
  rewrite decide_True by done. by rewrite decide_False.
Qed.

Lemma tempBasalJoin_cases (l : loc) (j : joiner) :
  tempBasalJoin l j = ([l], j)
  ∨ tempBasalJoin l j = ([l], {| heap := heap j; currTemp := Some l |})
  ∨ tempBasalJoin l j = ([], j)
  ∨ ∃ stop, tempBasalJoin l j
            = ([length (heap j)],
               {| heap := heap j ++ [stop]; currTemp := None |}).
Proof.
  unfold tempBasalJoin, keep, tempBasalJoin_fn.
  case_decide; [|by left]. case_decide; [|by right; left].
  destruct (currTemp j); [|by right; right; left].
  right; right; right. by eexists.
Qed.

Lemma deref_prefix (h1 h2 : store) (l : loc) :
  h1 `prefix_of` h2 → l < length h1 → deref h2 l = deref h1 l.
Proof.
  intros [k ->] Hl. unfold deref. by rewrite lookup_app_l.
Qed.

Lemma tempBasalJoin_step_grows (l : loc) (j : joiner) :
  heap j `prefix_of` heap (tempBasalJoin l j).2
  ∧ (length (heap (tempBasalJoin l j).2) ≤ S (length (heap j)))%nat
  ∧ (length (tempBasalJoin l j).1 ≤ 1)%nat
  ∧ Forall (λ l', l' = l
                  ∨ (length (heap j) ≤ l'
                     ∧ l' < length (heap (tempBasalJoin l j).2))%nat)
      (tempBasalJoin l j).1.
Proof.
  destruct (tempBasalJoin_cases l j) as [->|[->|[->|[stop ->]]]];
    cbn [fst snd heap length].
  - split; [done|]. split; [lia|]. split; [lia|]. constructor; auto.
  - split; [done|]. split; [lia|]. split; [lia|]. constructor; auto.
  - split; [done|]. split; [lia|]. split; [lia|]. constructor.
  - rewrite length_app. cbn [length].
    split; [by apply prefix_app_r|]. split; [lia|]. split; [lia|].
    constructor; [right; lia|constructor].
Qed.

(** X8: the joiner never changes an event it was given and never drops a
    store entry: over any input, from any state, the store only grows at
    its end, by at most one synthesized event per input; at most as many
    events come out as went in, and each is an input event or one of the
    new ones. *)
Theorem tempBasalJoin_run_grows (input : list loc) (j : joiner) :
  heap j `prefix_of` heap (tempBasalJoin_run input j).2
  ∧ (∀ l, l < length (heap j) →
          deref (heap (tempBasalJoin_run input j).2) l = deref (heap j) l)
  ∧ (length (heap (tempBasalJoin_run input j).2)
     ≤ length (heap j) + length input)%nat
  ∧ (length (tempBasalJoin_run input j).1 ≤ length input)%nat
  ∧ Forall (λ l', l' ∈ input
                  ∨ (length (heap j) ≤ l'
                     ∧ l' < length (heap (tempBasalJoin_run input j).2))%nat)
      (tempBasalJoin_run input j).1.
Proof.
  assert (heap j `prefix_of` heap (tempBasalJoin_run input j).2
          ∧ (length (heap (tempBasalJoin_run input j).2)
             ≤ length (heap j) + length input)%nat
          ∧ (length (tempBasalJoin_run input j).1 ≤ length input)%nat
          ∧ Forall (λ l', l' ∈ input
                          ∨ (length (heap j) ≤ l'
                             ∧ l' < length
                                      (heap (tempBasalJoin_run input j).2))%nat)
              (tempBasalJoin_run input j).1) as (H1 & H2 & H3 & H4).
  { revert j. induction input as [|l input IH]; intros j.
    - cbn. repeat split; auto. lia.
    - cbn [tempBasalJoin_run].
      destruct (tempBasalJoin_step_grows l j) as (Hp & Hlen & Hout & Hin).
      destruct (tempBasalJoin l j) as [out j']. cbn [fst snd] in *.
      destruct (IH j') as (Hp' & Hlen' & Hout' & Hin').
      destruct (tempBasalJoin_run input j') as [out' j'']. cbn [fst snd] in *.
      pose proof (prefix_length _ _ Hp) as Hle.
      pose proof (prefix_length _ _ Hp') as Hle'.
      repeat split.
      + by etrans.
      + cbn [length]. lia.
      + rewrite length_app. cbn [length]. lia.
      + apply Forall_app. split.
        * eapply Forall_impl; [exact Hin|]. cbn. intros l' [->|?].
          -- left. apply list_elem_of_here.
          -- right. lia.
        * eapply Forall_impl; [exact Hin'|]. cbn. intros l' [?|?].
          -- left. by apply list_elem_of_further.
          -- right. lia. }
  repeat split; try done.
  intros l Hl. by apply deref_prefix.
Qed.

(** X9: events that are not temp-delivery basal events go through the
    joiner untouched and in order, and leave its state, active or idle, as
    it was. *)
Theorem tempBasalJoin_run_others (input : list loc) (j : joiner) :
  Forall (λ l, ¬ is_temp (deref (heap j) l)) input →
  tempBasalJoin_run input j = (input, j).
Proof.
  induction 1 as [|l input Hl _ IH]; [done|].
  cbn [tempBasalJoin_run]. rewrite tempBasalJoin_other by done.
  by rewrite IH.
Qed.

Lemma tempBasalJoin_run_others_witness :
  tempBasalJoin_run [0; 0]
    {| heap := [wizard_event]; currTemp := Some 0 |}
  = ([0; 0], {| heap := [wizard_event]; currTemp := Some 0 |}).
Proof.
  apply (tempBasalJoin_run_others [0; 0]
           {| heap := [wizard_event]; currTemp := Some 0 |}).
  repeat constructor; intros [Htype _]; discriminate Htype.
Defined.

(** X10: a stop always refers to the most recent start.  Whatever was
    processed before and whatever the state was, a temp start followed by a
    stop signal comes out as the start itself followed by one synthesized
    event, made from the stop signal with the id of that start; a temp
    that was active before the start gets no stop of its own. *)
Theorem tempBasalJoin_start_then_stop (before : list loc) (l l' : loc)
    (j : joiner) :
  l < length (heap j) → l' < length (heap j) →
  is_temp_start (deref (heap j) l) →
  is_temp_stop_signal (deref (heap j) l') →
  tempBasalJoin_run (before ++ [l; l']) j
  = ((tempBasalJoin_run before j).1
       ++ [l; length (heap (tempBasalJoin_run before j).2)],
     {| heap := heap (tempBasalJoin_run before j).2
                ++ [temp_stop (deref (heap j) l')
                      (get (deref (heap j) l) "id")];
        currTemp := None |}).
Proof.
  intros Hl Hl' Hstart [[Htype Hdelivery] Hduration].
  rewrite tempBasalJoin_run_app.
  destruct (tempBasalJoin_run_grows before j) as (_ & Hsame & _).
  destruct (tempBasalJoin_run before j) as [out j1]. cbn [fst snd] in *.
  cbn [tempBasalJoin_run].
  rewrite tempBasalJoin_start by by rewrite Hsame.
  rewrite (tempBasalJoin_stop_active l' _ l); cbn [heap currTemp];
    rewrite ?Hsame; try done.
Qed.

Lemma tempBasalJoin_start_then_stop_witness :
  tempBasalJoin_run ([0] ++ [0; 1]) scenario
  = ((tempBasalJoin_run [0] scenario).1 ++ [0; 2],
     {| heap := [scenario_start; scenario_stop]
                ++ [temp_stop scenario_stop VUndef];
        currTemp := None |}).
Proof.
  apply (tempBasalJoin_start_then_stop [0] 0 1 scenario).
  - cbn. lia.
  - cbn. lia.
  - repeat split. discriminate.
  - by repeat split.
Defined.

(** X11: a stop signal is answered once.  Whatever was processed before,
    a second stop signal right after a stop signal yields nothing and
    changes nothing: only the first can find an active temp. *)
Theorem tempBasalJoin_repeated_stop (before : list loc) (l l' : loc)
    (j : joiner) :
  l < length (heap j) → l' < length (heap j) →
  is_temp_stop_signal (deref (heap j) l) →
  is_temp_stop_signal (deref (heap j) l') →
  tempBasalJoin_run (before ++ [l; l']) j
  = tempBasalJoin_run (before ++ [l]) j.
Proof.
  intros Hl Hl' [[Htype Hdelivery] Hduration] [[Htype' Hdelivery'] Hduration'].
  rewrite !tempBasalJoin_run_app.
  destruct (tempBasalJoin_run_grows before j) as (Hprefix & Hsame & _).
  destruct (tempBasalJoin_run before j) as [out j1]. cbn [fst snd] in *.
  pose proof (prefix_length _ _ Hprefix) as Hle.
  cbn [tempBasalJoin_run].
  destruct (currTemp j1) as [theTemp|] eqn:Hcurr.
  - rewrite (tempBasalJoin_stop_active l j1 theTemp) by by rewrite ?Hsame.
    rewrite tempBasalJoin_stop_idle; cbn [heap currTemp fst snd]; try done.
    all: rewrite (deref_prefix (heap j1)), Hsame;
      [done|done|by apply prefix_app_r|lia].
  - rewrite (tempBasalJoin_stop_idle l j1) by by rewrite ?Hsame.
    by rewrite (tempBasalJoin_stop_idle l' j1) by by rewrite ?Hsame.
Qed.

Lemma tempBasalJoin_repeated_stop_witness :
  tempBasalJoin_run ([0] ++ [1; 1]) scenario
  = tempBasalJoin_run ([0] ++ [1]) scenario.
Proof.
  apply (tempBasalJoin_repeated_stop [0] 1 1 scenario).
  - cbn. lia.
  - cbn. lia.
  - by repeat split.
  - by repeat split.
Defined.

(** ** splitMerge with handlers that behave: routing and completion *)

Section SplitMergeRouting.
Context {E O : Type}.
Variable selector : E → string.
Variable handlers : handlers_arg E O.
Variable hk : string → handled E O.
Hypothesis hk_steady : ∀ key, steady (hk key).

Implicit Types (m : merger E O) (key k : string) (es seen : list E).

#[local] Abbreviation routable := (routable handlers hk).

Lemma deliver_values key (ns : list (notif O)) m :
  Forall (λ n, terminal n = false) ns →
  deliver key ns m
  = (true, {| flows := flows m; calls := calls m; output := output m ++ ns |}).
Proof.
  intros Hns. revert m. induction Hns as [|n ns Hn _ IH]; intros m.
  - cbn. rewrite app_nil_r. by destruct m.
  - destruct n as [v| |]; try done. cbn [deliver]. rewrite IH. cbn.
    by rewrite <- app_assoc.
Qed.

Lemma not_detached_values m :
  Forall (λ n, terminal n = false) (output m) → detached m = false.
Proof.
  unfold detached. induction 1 as [|n ns Hn _ IH]; [done|].
  cbn. by rewrite Hn.
Qed.

Lemma events_of_snoc key es (e : E) :
  events_of selector key (es ++ [e])
  = events_of selector key es ++ (if decide (selector e = key) then [e] else []).
Proof.
  unfold events_of. by rewrite filter_app.
Qed.

Lemma events_of_unseen key es :
  key ∉ selector <$> es → events_of selector key es = [].
Proof.
  unfold events_of. induction es as [|e es IH]; [done|].
  rewrite fmap_cons, not_elem_of_cons. intros [Hne Hnotin].
  rewrite filter_cons, decide_False by done. by apply IH.
Qed.

Lemma answers_from_snoc seen es (e : E) :
  answers_from selector hk seen (es ++ [e])
  = answers_from selector hk seen es ++ answer selector hk (seen ++ es) e.
Proof.
  revert seen. induction es as [|e' es IH]; intros seen; cbn.
  - by rewrite !app_nil_r.
  - rewrite IH, <- !app_assoc. done.
Qed.

Lemma answer_values seen (e : E) :
  Forall (λ n, terminal n = false) (answer selector hk seen e).
Proof.
  unfold answer. destruct (hk_steady (selector e)) as [Hsub Hnext].
  apply Forall_app. split; [by case_decide|apply Hnext].
Qed.

Lemma answers_from_values seen es :
  Forall (λ n, terminal n = false) (answers_from selector hk seen es).
Proof.
  revert seen. induction es as [|e es IH]; intros seen; cbn; [done|].
  apply Forall_app. split; [apply answer_values|apply IH].
Qed.

(** Line 191 for a flow that is open: the event is answered by the
    handler's observable and joins the flow's history. *)
Lemma flow_push_open key (e : E) m (f : flow E O) :
  table_get key (flows m) = Some f →
  isStopped f = false → subscribed f = true →
  Forall (λ n, terminal n = false) (at_next (handler_output f) (pushed f) e) →
  flow_push key e m
  = {| flows := table_set key
                  {| pushed := pushed f ++ [e];
                     handler_output := handler_output f;
                     subscribed := true; isStopped := false |} (flows m);
       calls := calls m;
       output := output m ++ at_next (handler_output f) (pushed f) e |}.
Proof.
  intros Hget Hstopped Hsub Hvalues. unfold flow_push.
  rewrite Hget, Hstopped, Hsub. cbn [orb negb].
  rewrite deliver_values by done. unfold store_flow. cbn [flows].
  by rewrite Hget.
Qed.

Lemma splitMerge_onNext_routed es (e : E) m :
  routable (selector e) →
  routed selector hk es m →
  ∃ m', splitMerge_onNext selector handlers e m = (m', None)
        ∧ routed selector hk (es ++ [e]) m'.
Proof.
  intros [Hkey Hhandler] (Hkeys & Hnodup & Hcalls & Hflows & Hout).
  destruct (hk_steady (selector e)) as [Hsub Hnext].
  destruct (table_get (selector e) (flows m)) as [f|] eqn:Hget.
  - rewrite (splitMerge_onNext_own _ _ _ _ _ Hget).
    assert (selector e ∈ selector <$> es) as Hseen.
    { apply Hcalls. rewrite <- Hkeys.
      destruct (decide (selector e ∈ (flows m).*1)) as [|Hnotin]; [done|].
      apply table_get_None_own in Hnotin. congruence. }
    pose proof (Hflows _ _ Hget) as ->.
    eexists. split; [done|].
    rewrite (flow_push_open _ _ _ _ Hget) by (try done; apply Hnext).
    unfold routed.
    cbn [open_flow pushed handler_output flows calls output].
    split; [|split; [done|split; [|split]]].
    + rewrite table_own_set_old by by rewrite Hget. done.
    + intros k. rewrite Hcalls, fmap_app, elem_of_app. cbn.
      rewrite list_elem_of_singleton. split; [by left|].
      by intros [?| ->].
    + intros k f Hk. destruct (decide (k = selector e)) as [->|Hne].
      * rewrite table_get_set_eq in Hk. injection Hk as <-.
        unfold open_flow. rewrite events_of_snoc, decide_True by done. done.
      * rewrite table_get_set_ne in Hk by done.
        rewrite (Hflows _ _ Hk). unfold open_flow.
        rewrite events_of_snoc, decide_False, app_nil_r by done. done.
    + rewrite Hout. unfold answers. rewrite answers_from_snoc. cbn [app].
      unfold answer. by rewrite decide_True.
  - rewrite splitMerge_onNext_new by done. cbn zeta.
    assert (selector e ∉ selector <$> es) as Hunseen.
    { rewrite <- Hcalls, <- Hkeys. by apply table_get_None_own. }
    rewrite Hhandler. rewrite deliver_values by done.
    set (f0 := {| pushed := []; handler_output := hk (selector e);
                  subscribed := true; isStopped := false |}).
    eexists. split; [done|].
    rewrite (flow_push_open _ _ _ f0);
      [|cbn; apply table_get_set_eq|done|done|apply Hnext].
    unfold routed.
    cbn [f0 with_flow pushed handler_output flows calls output].
    split; [|split; [|split; [|split]]].
    + rewrite table_own_set_old by (rewrite table_get_set_eq; by eexists).
      rewrite table_own_set_new by done. by rewrite Hkeys.
    + apply NoDup_app. split; [done|]. split; [|apply NoDup_singleton].
      intros k Hk ->%list_elem_of_singleton. by apply Hunseen, Hcalls.
    + intros k. rewrite fmap_app, !elem_of_app, Hcalls. cbn.
      by rewrite !list_elem_of_singleton.
    + intros k f Hk. destruct (decide (k = selector e)) as [->|Hne].
      * rewrite table_get_set_eq in Hk. injection Hk as <-.
        unfold open_flow. rewrite events_of_snoc, decide_True by done.
        by rewrite events_of_unseen.
      * rewrite !table_get_set_ne in Hk by done.
        rewrite (Hflows _ _ Hk). unfold open_flow.
        rewrite events_of_snoc, decide_False, app_nil_r by done. done.
    + rewrite Hout. unfold answers. rewrite answers_from_snoc. cbn [app].
      unfold answer. rewrite decide_False by done.
      rewrite (events_of_unseen _ es) by done. by rewrite <- app_assoc.
Qed.

Lemma splitMerge_routed es :
  Forall (λ e, routable (selector e)) es →
  ∃ m, splitMerge selector handlers (OnNext <$> es) = (m, Live)
       ∧ routed selector hk es m
       ∧ splitMerge_thrown selector handlers (OnNext <$> es) = [].
Proof.
  unfold splitMerge, splitMerge_thrown.
  induction es as [|e es IH] using rev_ind; intros Hes.
  - exists merger_init. split; [done|]. split; [|done].
    split; [done|]. split; [apply NoDup_nil_2|]. split; [|done].
    intros k. cbn. split; by intros ?%elem_of_nil.
  - apply Forall_app in Hes as [Hes He]. apply Forall_inv in He.
    destruct (IH Hes) as (m & Hrun & Hm & Hthrown).
    destruct (splitMerge_onNext_routed es e m He Hm) as (m' & Hnext & Hm').
    assert (detached m = false) as Hattached.
    { apply not_detached_values.
      destruct Hm as (_ & _ & _ & _ & ->). apply answers_from_values. }
    exists m'. split; [|split; [done|]].
    + rewrite fmap_app, foldl_app, Hrun. cbn [fmap list_fmap foldl].
      rewrite splitMerge_step_live by done. by rewrite Hnext.
    + rewrite fmap_app, thrown_from_app, Hthrown, Hrun.
      cbn [fmap list_fmap thrown_from app].
      rewrite splitMerge_call_live by done. by rewrite Hnext.
Qed.

(** X12: while the handlers' observables send values only, [splitMerge]
    routes by key.  After any events whose keys name no inherited
    property and have a handler, the subscription is live and no
    exception was thrown; the handler has been called once for each key
    that occurred and for no other; the table holds these keys, added in
    that order; the flow of a key has been pushed exactly the events of
    that key, in order; and the output is, event by event, what the
    handler of the event's key answers, given the earlier events of that
    key. *)
Theorem splitMerge_routes_by_key es :
  Forall (λ e, routable (selector e)) es →
  (splitMerge selector handlers (OnNext <$> es)).2 = Live
  ∧ splitMerge_thrown selector handlers (OnNext <$> es) = []
  ∧ output (splitMerge selector handlers (OnNext <$> es)).1
    = answers selector hk es
  ∧ NoDup (calls (splitMerge selector handlers (OnNext <$> es)).1)
  ∧ (∀ k, k ∈ calls (splitMerge selector handlers (OnNext <$> es)).1
          ↔ k ∈ selector <$> es)
  ∧ (flows (splitMerge selector handlers (OnNext <$> es)).1).*1
    = calls (splitMerge selector handlers (OnNext <$> es)).1
  ∧ (∀ k, k ∈ selector <$> es →
          table_get k (flows (splitMerge selector handlers (OnNext <$> es)).1)
          = Some (open_flow selector hk k es)).
Proof.
  intros Hes.
  destruct (splitMerge_routed es Hes)
    as (m & -> & (Hkeys & Hnodup & Hcalls & Hflows & Hout) & Hthrown).
  cbn [fst snd]. repeat split; try done; try apply Hcalls.
  intros k Hk. apply Hcalls in Hk. rewrite <- Hkeys in Hk.
  destruct (table_get k (flows m)) as [f|] eqn:Hget.
  - by rewrite (Hflows _ _ Hget).
  - by apply table_get_None_own in Hget.
Qed.

(** *** The upstream's completion *)

Variable lv : string → list E → list O.
Hypothesis hk_closing :
  ∀ key earlier,
    at_completed (hk key) earlier = (OnNext <$> lv key earlier) ++ [OnCompleted].

Lemma deliver_values_then key (ns rest : list (notif O)) m :
  Forall (λ n, terminal n = false) ns →
  deliver key (ns ++ rest) m
  = deliver key rest
      {| flows := flows m; calls := calls m; output := output m ++ ns |}.
Proof.
  intros Hns. revert m. induction Hns as [|n ns Hn _ IH]; intros m.
  - cbn. rewrite app_nil_r. by destruct m.
  - destruct n as [v| |]; try done. cbn [app deliver]. rewrite IH. cbn.
    by rewrite <- app_assoc.
Qed.

(** Line 202 for an open flow: its handler's observable sends its last
    values and completes, the key leaves the table, and the output is
    completed if the table is empty then. *)
Lemma flow_complete_open key m es :
  table_get key (flows m) = Some (open_flow selector hk key es) →
  flow_complete key m
  = {| flows := table_delete key (flows m); calls := calls m;
       output := output m ++ (OnNext <$> lv key (events_of selector key es))
                 ++ (if decide (table_delete key (flows m) = [])
                     then [OnCompleted] else []) |}.
Proof.
  intros Hget. unfold flow_complete. rewrite Hget.
  cbn [open_flow isStopped subscribed negb handler_output pushed].
  rewrite hk_closing, deliver_values_then
    by (apply Forall_fmap, Forall_true; done).
  cbn [deliver]. unfold flow_onCompleted. cbn [flows calls output].
  rewrite table_keys_length. unfold store_flow.
  destruct (table_delete key (flows m)) as [|kf t] eqn:Hdelete.
  - rewrite decide_True by done. rewrite (decide_True (P := [] = [])) by done.
    cbn [flows table_get]. unfold emit. cbn [flows calls output].
    by rewrite <- app_assoc.
  - rewrite decide_False by done.
    rewrite (decide_False (P := kf :: t = [])) by done.
    cbn [flows]. rewrite <- Hdelete, table_get_delete_eq.
    by rewrite app_nil_r.
Qed.

Lemma foldl_flow_complete_open (keys : list string) es m :
  NoDup keys → keys ≠ [] →
  (flows m).*1 ≡ₚ keys →
  (∀ k f, table_get k (flows m) = Some f → f = open_flow selector hk k es) →
  foldl (λ m key, flow_complete key m) m keys
  = {| flows := []; calls := calls m;
       output := output m
                 ++ (OnNext <$> (keys ≫= λ k, lv k (events_of selector k es)))
                 ++ [OnCompleted] |}.
Proof.
  intros Hnodup. revert m.
  induction Hnodup as [|key keys Hkey Hnodup IH];
    intros m Hne Hperm Hflows; [done|].
  cbn [foldl].
  assert (table_get key (flows m) = Some (open_flow selector hk key es))
    as Hget.
  { destruct (table_get_Some_own (flows m) key) as [f Hf].
    - rewrite Hperm. apply list_elem_of_here.
    - by rewrite Hf, (Hflows _ _ Hf). }
  rewrite (flow_complete_open key m es Hget).
  assert ((table_delete key (flows m)).*1 ≡ₚ keys) as Hperm'.
  { rewrite table_own_delete, Hperm, filter_cons.
    rewrite decide_False by (by intros ?).
    clear -Hkey. induction keys as [|k keys IH]; [done|].
    apply not_elem_of_cons in Hkey as [Hne Hkey].
    rewrite filter_cons, decide_True by done. by rewrite IH. }
  destruct keys as [|key' keys'].
  - apply Permutation_nil_r in Hperm'. apply fmap_nil_inv in Hperm'.
    rewrite Hperm'. cbn. by rewrite app_nil_r.
  - assert (table_delete key (flows m) ≠ []) as Hrest.
    { intros Hempty. rewrite Hempty in Hperm'.
      by apply Permutation_nil_cons in Hperm'. }
    rewrite IH; [|done|done|].
    + cbn [calls output]. rewrite decide_False by done.
      rewrite app_nil_r, (bind_cons _ key), !fmap_app, <- !app_assoc. done.
    + cbn [flows]. intros k f Hk. apply (Hflows k).
      by eapply table_get_delete_Some.
Qed.

Lemma splitMerge_closing_run es (rest : list (notif E)) :
  Forall (λ e, routable (selector e)) es →
  splitMerge selector handlers ((OnNext <$> es) ++ OnCompleted :: rest)
  = ({| flows := [];
        calls := calls (splitMerge selector handlers (OnNext <$> es)).1;
        output :=
          answers selector hk es
          ++ (OnNext <$>
                (Object_keys_order
                   (calls (splitMerge selector handlers (OnNext <$> es)).1)
                   ≫= λ k, lv k (events_of selector k es)))
          ++ [OnCompleted] |},
     Stopped).
Proof.
  intros Hes.
  destruct (splitMerge_routed es Hes)
    as (m & Hrun & (Hkeys & Hnodup & Hcalls & Hflows & Hout) & _).
  assert (detached m = false) as Hattached.
  { apply not_detached_values. rewrite Hout. apply answers_from_values. }
  unfold splitMerge in *. rewrite foldl_app, Hrun. cbn [foldl fst].
  rewrite splitMerge_step_live by done.
  rewrite splitMerge_stopped. f_equal.
  unfold splitMerge_onCompleted, table_keys. rewrite Hkeys.
  pose proof (Object_keys_order_Permutation (calls m)) as Hperm.
  destruct (Object_keys_order (calls m)) as [|key keys] eqn:Horder.
  - rewrite decide_True by done.
    apply Permutation_nil_l in Hperm. symmetry in Hperm.
    assert (flows m = []) as Hempty.
    { apply fmap_nil_inv with (f := fst). by rewrite Hkeys. }
    unfold emit. by rewrite Hempty, Hout.
  - rewrite decide_False by done.
    rewrite (foldl_flow_complete_open _ es m); [by rewrite Hout| | | |done].
    + by rewrite Hperm.
    + done.
    + by rewrite Hkeys, Hperm.
Qed.

(** X13: completion is aggregated.  When the upstream completes, every
    open flow is completed, in the order [Object.keys] lists the table:
    the keys that are array indices first, in ascending order, then the
    others in the order they first occurred (so, when no key is an array
    index, in the order the keys first occurred); the last values each
    handler's observable sends on its flow's completion are forwarded in
    that order; the merged output is completed once, after the last of
    them (at once when there was no event); the table is empty, and
    nothing the upstream sends later is looked at. *)
Theorem splitMerge_completion_drains es (rest : list (notif E)) :
  Forall (λ e, routable (selector e)) es →
  splitMerge selector handlers ((OnNext <$> es) ++ OnCompleted :: rest)
  = ({| flows := [];
        calls := calls (splitMerge selector handlers (OnNext <$> es)).1;
        output :=
          answers selector hk es
          ++ (OnNext <$>
                (Object_keys_order
                   (calls (splitMerge selector handlers (OnNext <$> es)).1)
                   ≫= λ k, lv k (events_of selector k es)))
          ++ [OnCompleted] |},
     Stopped)
  ∧ (Forall (λ e, array_index (selector e) = None) es →
     Object_keys_order (calls (splitMerge selector handlers (OnNext <$> es)).1)
     = calls (splitMerge selector handlers (OnNext <$> es)).1).
Proof.
  intros Hes. split; [by apply splitMerge_closing_run|].
  intros Hnames. apply Object_keys_order_names.
  destruct (splitMerge_routed es Hes)
    as (m & -> & (_ & _ & Hcalls & _) & _). cbn [fst].
  apply Forall_forall. intros k Hk. apply Hcalls in Hk.
  apply list_elem_of_fmap in Hk as (e & -> & He).
  by apply (proj1 (Forall_forall _ _) Hnames).
Qed.
End SplitMergeRouting.

Lemma identity_handlers_steady (key : string) :
  steady (@identity_handler string).
Proof. split; [constructor|]. intros earlier e. by repeat constructor. Qed.

Lemma splitMerge_routes_by_key_witness :
  let r := splitMerge (λ e : string, e)
             (ByKeyFunction (λ _, Ret identity_handler))
             (OnNext <$> ["A"; "A"; "B"; "A"]) in
  r.2 = Live
  ∧ splitMerge_thrown (λ e : string, e)
      (ByKeyFunction (λ _, Ret identity_handler))
      (OnNext <$> ["A"; "A"; "B"; "A"]) = []
  ∧ output r.1
    = answers (λ e : string, e) (λ _, identity_handler) ["A"; "A"; "B"; "A"]
  ∧ NoDup (calls r.1)
  ∧ (∀ k, k ∈ calls r.1 ↔ k ∈ (λ e : string, e) <$> ["A"; "A"; "B"; "A"])
  ∧ (flows r.1).*1 = calls r.1
  ∧ (∀ k, k ∈ (λ e : string, e) <$> ["A"; "A"; "B"; "A"] →
          table_get k (flows r.1)
          = Some (open_flow (λ e : string, e) (λ _, identity_handler) k
                    ["A"; "A"; "B"; "A"])).
Proof.
  apply (splitMerge_routes_by_key (λ e : string, e)
           (ByKeyFunction (λ _, Ret identity_handler))
           (λ _, identity_handler) identity_handlers_steady
           ["A"; "A"; "B"; "A"]).
  repeat constructor; not_listed.
Defined.

Lemma closing_handlers_steady (key : string) :
  steady (closing_handler ("end of " +:+ key)).
Proof. split; [constructor|]. intros earlier e. by repeat constructor. Qed.

Lemma splitMerge_completion_drains_witness :
  splitMerge (λ e : string, e) closing_by_key
    ((OnNext <$> ["b"; "1"; "b"]) ++ OnCompleted :: [OnNext "c"])
  = ({| flows := [];
        calls := ["b"; "1"];
        output := [OnNext "b"; OnNext "1"; OnNext "b";
                   OnNext "end of 1"; OnNext "end of b"; OnCompleted] |},
     Stopped).
Proof.
  etrans.
  - apply (splitMerge_completion_drains (λ e : string, e) closing_by_key
             (λ key, closing_handler ("end of " +:+ key))
             closing_handlers_steady
             (λ key _, ["end of " +:+ key]) (λ _ _, eq_refl)
             ["b"; "1"; "b"] [OnNext "c"]).
    repeat constructor; not_listed.
  - vm_compute. reflexivity.
Defined.

Lemma answers_from_map {E O : Type} (selector : E → string)
    (g : string → E → O) (seen es : list E) :
  answers_from selector (λ key, map_handler (g key)) seen es
  = OnNext <$> ((λ e, g (selector e) e) <$> es).
Proof.
  revert seen. induction es as [|e es IH]; intros seen; [done|].
  cbn [answers_from]. rewrite IH. unfold answer. by case_decide.
Qed.

Lemma bind_nothing {A B : Type} (l : list A) : l ≫= (λ _, @nil B) = [].
Proof. induction l as [|a l IH]; [done|]. by rewrite bind_cons, IH. Qed.

(** X14: with a per-key map as handler, [flow.map(g key)] for every key,
    splitting and merging a stream whose keys name no inherited property
    is one map over the stream: every event comes out mapped by the
    function of its key, in the order of arrival, and the output
    completes right after, on the upstream's completion, with every flow
    closed; an empty stream just completes. *)
Theorem splitMerge_map_handlers {E O : Type} (selector : E → string)
    (g : string → E → O) (es : list E) (rest : list (notif E)) :
  Forall (λ e, selector e ∉ Object_prototype) es →
  let r := splitMerge selector
             (ByKeyFunction (λ key, Ret (map_handler (g key))))
             ((OnNext <$> es) ++ OnCompleted :: rest) in
  output r.1 = (OnNext <$> ((λ e, g (selector e) e) <$> es)) ++ [OnCompleted]
  ∧ flows r.1 = []
  ∧ r.2 = Stopped
  ∧ NoDup (calls r.1)
  ∧ (∀ k, k ∈ calls r.1 ↔ k ∈ selector <$> es).
Proof.
  intros Hkeys. cbn zeta.
  assert (∀ key, steady (map_handler (E := E) (g key))) as Hsteady.
  { intros key. split; [constructor|]. intros earlier e. by repeat constructor. }
  assert (Forall (λ e, routable (ByKeyFunction (λ key, Ret (map_handler (g key))))
                         (λ key, map_handler (g key)) (selector e)) es)
    as Hes.
  { eapply Forall_impl; [exact Hkeys|]. intros e He. by split. }
  rewrite (splitMerge_closing_run selector
             (ByKeyFunction (λ key, Ret (map_handler (g key))))
             (λ key, map_handler (g key))
             Hsteady (λ _ _, []) (λ _ _, eq_refl)) by done.
  cbn [fst snd flows calls output].
  destruct (splitMerge_routed selector
              (ByKeyFunction (λ key, Ret (map_handler (g key))))
              (λ key, map_handler (g key)) Hsteady es Hes)
    as (m & -> & (_ & Hnodup & Hcalls & _) & _).
  cbn [fst]. unfold answers. rewrite answers_from_map, bind_nothing.
  by repeat split; try apply Hcalls.
Qed.

Lemma splitMerge_map_handlers_witness :
  let r := splitMerge (λ e : string, e)
             (ByKeyFunction (λ key, Ret (map_handler (λ e, key +:+ e))))
             ((OnNext <$> ["A"; "B"; "A"]) ++ OnCompleted :: []) in
  output r.1
  = (OnNext <$> ((λ e, e +:+ e) <$> ["A"; "B"; "A"])) ++ [OnCompleted]
  ∧ flows r.1 = []
  ∧ r.2 = Stopped
  ∧ NoDup (calls r.1)
  ∧ (∀ k, k ∈ calls r.1 ↔ k ∈ (λ e : string, e) <$> ["A"; "B"; "A"]).
Proof.
  apply (splitMerge_map_handlers (λ e : string, e)
           (λ key e, key +:+ e) ["A"; "B"; "A"] []).
  repeat constructor; not_listed.
Defined.

(** X15: an upstream error reaching a live subscription is forwarded to
    the output at once, and that is all: the open flows stay in the table
    as they are, none is completed and no handler hears of the error, and
    what the upstream sends afterwards is not looked at. *)
Theorem splitMerge_upstream_error {E O : Type} (selector : E → string)
    (handlers : handlers_arg E O) (before after : list (notif E))
    (err : exn) :
  (splitMerge selector handlers before).2 = Live →
  detached (splitMerge selector handlers before).1 = false →
  splitMerge selector handlers (before ++ OnError err :: after)
  = ({| flows := flows (splitMerge selector handlers before).1;
        calls := calls (splitMerge selector handlers before).1;
        output := output (splitMerge selector handlers before).1
                  ++ [OnError err] |},
     Stopped).
Proof.
  intros Hlive Hattached. unfold splitMerge in *.
  rewrite foldl_app. cbn [foldl].
  destruct (foldl _ _ before) as [m u]. cbn [fst snd] in *. subst u.
  rewrite splitMerge_step_live by done.
  apply splitMerge_stopped.
Qed.

Lemma splitMerge_upstream_error_witness :
  splitMerge (λ e : string, e) (ByKeyFunction (λ _, Ret identity_handler))
    ([OnNext "A"; OnNext "B"] ++ OnError (JsError "EIO") :: [OnNext "A"])
  = ({| flows := flows (splitMerge (λ e : string, e)
                          (ByKeyFunction (λ _, Ret identity_handler))
                          [OnNext "A"; OnNext "B"]).1;
        calls := ["A"; "B"];
        output := [OnNext "A"; OnNext "B"] ++ [OnError (JsError "EIO")] |},
     Stopped).
Proof.
  exact (splitMerge_upstream_error (λ e : string, e)
           (ByKeyFunction (λ _, Ret identity_handler))
           [OnNext "A"; OnNext "B"] [OnNext "A"] (JsError "EIO")
           eq_refl eq_refl).
Defined.

Lemma identity_handlers_patient :
  patient (E := string) (ByKeyFunction (λ _, Ret identity_handler)).
Proof.
  intros key h [= <-]. split.
  - apply not_elem_of_nil.
  - intros earlier e Hin. apply list_elem_of_singleton in Hin. discriminate Hin.
Qed.

Lemma splitMerge_patient_witness :
  NoDup (calls (splitMerge (λ e : string, e)
                  (ByKeyFunction (λ _, Ret identity_handler))
                  [OnNext "A"; OnNext "B"; OnNext "A"; OnCompleted]).1)
  ∧ (OnCompleted
       ∈ output (splitMerge (λ e : string, e)
                   (ByKeyFunction (λ _, Ret identity_handler))
                   [OnNext "A"; OnNext "B"; OnNext "A"; OnCompleted]).1 →
     OnCompleted ∈ [OnNext "A"; OnNext "B"; OnNext "A"; @OnCompleted string]).
Proof.
  split.
  - apply (proj1 (splitMerge_patient (λ e : string, e)
                    (ByKeyFunction (λ _, Ret identity_handler))
                    [OnNext "A"; OnNext "B"; OnNext "A"; OnCompleted]
                    identity_handlers_patient)).
    intros e _. by exists identity_handler.
  - apply (proj2 (splitMerge_patient (λ e : string, e)
                    (ByKeyFunction (λ _, Ret identity_handler))
                    [OnNext "A"; OnNext "B"; OnNext "A"; OnCompleted]
                    identity_handlers_patient)).
Defined.

(** ** sort *)

Lemma toArray_from_nexts {A : Type} (asArray xs : list A)
    (tail : list (notif A)) :
  toArray_from asArray ((OnNext <$> xs) ++ tail)
  = toArray_from (asArray ++ xs) tail.
Proof.
  revert asArray. induction xs as [|x xs IH]; intros asArray.
  - by rewrite app_nil_r.
  - rewrite fmap_cons. cbn [app toArray_from]. rewrite IH.
    by rewrite <- app_assoc.
Qed.

Lemma inner_run_fromArray {A : Type} (arr : list A) :
  inner_run (fromArray arr) = (arr, InnerCompleted).
Proof.
  unfold fromArray. induction arr as [|a arr IH]; [done|].
  rewrite fmap_cons. cbn [app inner_run]. by rewrite IH.
Qed.

(** X17: [sort] holds everything back: as long as the upstream has not
    completed nothing comes out, and on an upstream error the error comes
    out alone, the elements collected so far being dropped. *)
Theorem sort_buffers {A : Type} (array_sort : list A → list A)
    (xs : list A) (err : exn) (rest : list (notif A)) :
  sort array_sort (OnNext <$> xs) = []
  ∧ sort array_sort ((OnNext <$> xs) ++ OnError err :: rest) = [OnError err].
Proof.
  unfold sort, toArray. split.
  - rewrite <- (app_nil_r (OnNext <$> xs)). by rewrite toArray_from_nexts.
  - by rewrite toArray_from_nexts.
Qed.

(** X18: when the upstream completes, [sort] sends the elements it has
    collected, all of them and in the order of one call of [Array.sort] on
    the array of them in arrival order, then completes; what the upstream
    sends afterwards is not looked at.  The output has the elements of the
    input whenever [Array.sort] permutes its array. *)
Theorem sort_completed {A : Type} (array_sort : list A → list A)
    (xs : list A) (rest : list (notif A)) :
  sort array_sort ((OnNext <$> xs) ++ OnCompleted :: rest)
  = (OnNext <$> array_sort xs) ++ [OnCompleted]
  ∧ ((∀ arr, array_sort arr ≡ₚ arr) →
     ∃ ys, sort array_sort ((OnNext <$> xs) ++ OnCompleted :: rest)
           = (OnNext <$> ys) ++ [OnCompleted]
           ∧ ys ≡ₚ xs).
Proof.
  assert (sort array_sort ((OnNext <$> xs) ++ OnCompleted :: rest)
          = (OnNext <$> array_sort xs) ++ [OnCompleted]) as Hsort.
  { unfold sort, toArray. rewrite toArray_from_nexts.
    cbn [app toArray_from]. unfold flatMap. cbn [flatMap_from].
    rewrite inner_run_fromArray. done. }
  split; [done|]. intros Hperm. exists (array_sort xs). by split.
Qed.

(** ** splitMerge: a flow whose handler does not complete *)

Section SplitMergeBlocked.
Context {E O : Type}.
Variable selector : E → string.
Variable handlers : handlers_arg E O.
Variable key : string.

Implicit Types (m : merger E O) (k : string).

#[local] Abbreviation blocked := (blocked key).

Lemma deliver_other_key k (ns : list (notif O)) m :
  k ≠ key →
  is_Some (table_get key (flows m)) →
  table_get key (flows (deliver k ns m).2) = table_get key (flows m)
  ∧ (OnCompleted ∉ output m → OnCompleted ∉ output (deliver k ns m).2).
Proof.
  intros Hne. revert m. induction ns as [|[v|err|] ns IH]; intros m Hsome.
  - done.
  - cbn [deliver]. destruct (IH (flow_onNext v m) Hsome) as [Hget Hout].
    split; [done|]. intros Hm. apply Hout. cbn.
    rewrite elem_of_app, list_elem_of_singleton. by intros [?|?].
  - cbn. split; [done|]. intros Hm.
    rewrite elem_of_app, list_elem_of_singleton. by intros [?|?].
  - cbn [deliver snd]. rewrite flow_onCompleted_flows.
    rewrite table_get_delete_ne by done. split; [done|].
    rewrite flow_onCompleted_output. intros Hm.
    rewrite decide_False; [by rewrite app_nil_r|].
    intros Hempty. destruct Hsome as [f Hf].
    rewrite <- (table_get_delete_ne _ k) in Hf by done.
    by rewrite Hempty in Hf.
Qed.

Lemma flow_complete_blocked k m : blocked m → blocked (flow_complete k m).
Proof.
  intros (Hout & f & Hget & Hf). unfold flow_complete.
  destruct (decide (k = key)) as [->|Hne].
  - rewrite Hget. destruct (isStopped f) eqn:Hstopped; [by split; eauto|].
    destruct Hf as [?|Hf]; [done|].
    destruct (subscribed f); cbn [negb].
    + destruct (deliver_no_completion key _ m Hf) as [Hflows Hout'].
      destruct (deliver key _ m) as [live m']. cbn [snd] in *.
      unfold store_flow. rewrite Hflows, Hget.
      split; [by apply Hout'|]. cbn. rewrite table_get_set_eq. eauto.
    + split; [done|]. cbn. rewrite table_get_set_eq. eauto.
  - destruct (table_get k (flows m)) as [f'|] eqn:Hget'; [|by split; eauto].
    destruct (isStopped f'); [by split; eauto|].
    destruct (negb (subscribed f')).
    + split; [done|]. cbn. rewrite table_get_set_ne by done. eauto.
    + destruct (deliver_other_key k
                  (at_completed (handler_output f') (pushed f')) m Hne)
        as [Hget'' Hout']; [by rewrite Hget|].
      destruct (deliver k _ m) as [live m']. cbn [snd] in *.
      unfold store_flow. destruct (table_get k (flows m')).
      * split; [by apply Hout'|]. cbn.
        rewrite table_get_set_ne, Hget'', Hget by done. eauto.
      * split; [by apply Hout'|]. rewrite Hget'', Hget. eauto.
Qed.

Lemma foldl_flow_complete_blocked (keys : list string) m :
  blocked m → blocked (foldl (λ m k, flow_complete k m) m keys).
Proof.
  revert m. induction keys as [|k keys IH]; intros m Hm; [done|].
  cbn. by apply IH, flow_complete_blocked.
Qed.

(** X19: the completion of the merged output waits for every flow.  If,
    when the upstream completes, the table holds a flow whose handler's
    observable does not complete in reaction to the flow's completion, the
    merged output is not completed, whatever the other flows do, and that
    flow stays in the table. *)
Theorem splitMerge_completion_waits (before after : list (notif E))
    (f : flow E O) :
  (splitMerge selector handlers before).2 = Live →
  OnCompleted ∉ output (splitMerge selector handlers before).1 →
  detached (splitMerge selector handlers before).1 = false →
  table_get key (flows (splitMerge selector handlers before).1) = Some f →
  OnCompleted ∉ at_completed (handler_output f) (pushed f) →
  (splitMerge selector handlers (before ++ OnCompleted :: after)).2 = Stopped
  ∧ (OnCompleted
     ∉ output (splitMerge selector handlers (before ++ OnCompleted :: after)).1)
  ∧ is_Some (table_get key
               (flows (splitMerge selector handlers
                         (before ++ OnCompleted :: after)).1)).
Proof.
  intros Hlive Hout Hattached Hget Hf. unfold splitMerge in *.
  rewrite foldl_app. cbn [foldl].
  destruct (foldl _ _ before) as [m u]. cbn [fst snd] in *. subst u.
  rewrite splitMerge_step_live by done.
  rewrite splitMerge_stopped. cbn [fst snd]. split; [done|].
  assert (blocked (splitMerge_onCompleted m)) as (Hout' & f' & Hget' & _).
  { unfold splitMerge_onCompleted. case_decide as Hkeys.
    - rewrite table_keys_length in Hkeys.
      destruct (flows m); [done|discriminate Hkeys].
    - apply foldl_flow_complete_blocked. split; [done|]. eauto. }
  split; [done|]. by rewrite Hget'.
Qed.
End SplitMergeBlocked.

Lemma splitMerge_completion_waits_witness :
  (splitMerge (λ e : string, e) endless_for_A
     ([OnNext "A"; OnNext "B"] ++ OnCompleted :: [])).2 = Stopped
  ∧ (OnCompleted
     ∉ output (splitMerge (λ e : string, e) endless_for_A
                 ([OnNext "A"; OnNext "B"] ++ OnCompleted :: [])).1)
  ∧ is_Some (table_get "A"
               (flows (splitMerge (λ e : string, e) endless_for_A
                         ([OnNext "A"; OnNext "B"] ++ OnCompleted :: [])).1)).
Proof.
  apply (splitMerge_completion_waits (λ e : string, e) endless_for_A "A"
           [OnNext "A"; OnNext "B"] []
           {| pushed := ["A"]; handler_output := endless_handler;
              subscribed := true; isStopped := false |}).
  - reflexivity.
  - vm_compute. intros Hin.
    repeat (apply elem_of_cons in Hin as [Hin|Hin]; [discriminate Hin|]).
    by apply elem_of_nil in Hin.
  - reflexivity.
  - reflexivity.
  - apply not_elem_of_nil.
Defined.

(** ** splitMerge: an error of a handler's observable *)


